(** * simple_di: providers, configuration paths and call-time injection

    A shallow embedding of [simple_di/__init__.py] and
    [simple_di/providers.py].

    - Python objects with identity are modelled by identifiers: provider
      objects by a [positive] naming their mutable attributes in the store,
      dict objects by a location of the dict heap, immutable objects
      (ints, strings) by an object identifier carried next to the payload.
    - Attributes that only [__init__] assigns ([_value], [_func], [_args],
      [_kwargs], [fallback], [_config], [_path]) are fields of the provider
      term; attributes that methods reassign ([_override], [_cache],
      [_data]) and dict contents live in the [state].
    - Methods are computations in a state-and-exception monad: a raised
      exception keeps the mutations made before it. *)

From Stdlib Require Import ZArith List Lia.
From stdpp Require Import base option list gmap strings.

Open Scope string_scope.
Open Scope list_scope.

(** ** Exceptions and results *)

Inductive exn :=
| AttributeError (name : string)
| KeyError (key : string)
| TypeError
| IndexError
| ValueError (msg : string)
| NotImplementedError
| NameError (name : string)
| UserError (tag : string)
| Dangling.

Inductive result (A : Type) :=
| Ok (a : A)
| Err (e : exn).
Arguments Ok {A} a.
Arguments Err {A} e.

(** ** Class definitions at import time

    What [providers.py] does when the module body runs: every [class]
    statement evaluates the assignments of its body in order, and an
    attribute reference [C.name] on a class searches the namespaces of
    [C] and of its bases (single inheritance throughout the package). *)

Module ClassDef.

(** Values stored in a class namespace. *)
Inductive cval :=
| CTuple (items : list string)
| CFunction (name : string)
| CDoc.

(** A class object: its namespace and, except for [object], its base. *)
Inductive pyclass :=
| RootClass (name : string) (ns : list (string * cval))
| Class (name : string) (ns : list (string * cval)) (base : pyclass).

Definition class_name (c : pyclass) : string :=
  match c with RootClass n _ | Class n _ _ => n end.

Fixpoint assoc {A} (k : string) (l : list (string * A)) : option A :=
  match l with
  | [] => None
  | (k', v) :: rest => if String.eqb k k' then Some v else assoc k rest
  end.

(** [type.__getattribute__]: search the class, then its bases. *)
Fixpoint class_getattr (c : pyclass) (name : string) : result cval :=
  match c with
  | RootClass _ ns =>
      match assoc name ns with
      | Some v => Ok v
      | None => Err (AttributeError name)
      end
  | Class _ ns base =>
      match assoc name ns with
      | Some v => Ok v
      | None => class_getattr base name
      end
  end.

(** Expressions that occur on the right of a class-body assignment. *)
Inductive expr :=
| EAttr (cls : string) (attr : string)
| ETuple (items : list string)
| EAdd (e1 e2 : expr).

Inductive stmt :=
| Assign (target : string) (e : expr)
| Def (name : string)
| Doc.

(** Module-level statements of [providers.py]. *)
Inductive mstmt :=
| ClassStmt (name : string) (base : string) (body : list stmt)
| Alias (target : string) (source : string).

Definition globals := list (string * pyclass).

Definition lookup_global (g : globals) (name : string) : result pyclass :=
  match assoc name g with
  | Some c => Ok c
  | None => Err (NameError name)
  end.

Fixpoint eval_expr (g : globals) (e : expr) : result cval :=
  match e with
  | EAttr cls attr =>
      match lookup_global g cls with
      | Ok c => class_getattr c attr
      | Err x => Err x
      end
  | ETuple items => Ok (CTuple items)
  | EAdd e1 e2 =>
      match eval_expr g e1 with
      | Ok (CTuple a) =>
          match eval_expr g e2 with
          | Ok (CTuple b) => Ok (CTuple (a ++ b))
          | Ok _ => Err TypeError
          | Err x => Err x
          end
      | Ok _ => Err TypeError
      | Err x => Err x
      end
  end.

(** Run a class body, building the namespace statement by statement. *)
Fixpoint exec_body (g : globals) (ns : list (string * cval)) (body : list stmt)
  : result (list (string * cval)) :=
  match body with
  | [] => Ok ns
  | Assign t e :: rest =>
      match eval_expr g e with
      | Ok v => exec_body g ((t, v) :: ns) rest
      | Err x => Err x
      end
  | Def n :: rest => exec_body g ((n, CFunction n) :: ns) rest
  | Doc :: rest => exec_body g (("__doc__", CDoc) :: ns) rest
  end.

Definition exec_class (g : globals) (name base : string) (body : list stmt)
  : result pyclass :=
  match lookup_global g base with
  | Ok b =>
      match exec_body g [] body with
      | Ok ns => Ok (Class name ns b)
      | Err x => Err x
      end
  | Err x => Err x
  end.

Definition exec_mstmt (g : globals) (s : mstmt) : result globals :=
  match s with
  | ClassStmt name base body =>
      match exec_class g name base body with
      | Ok c => Ok ((name, c) :: g)
      | Err x => Err x
      end
  | Alias t s =>
      match lookup_global g s with
      | Ok c => Ok ((t, c) :: g)
      | Err x => Err x
      end
  end.

Fixpoint exec_module (g : globals) (m : list mstmt) : result globals :=
  match m with
  | [] => Ok g
  | s :: rest =>
      match exec_mstmt g s with
      | Ok g' => exec_module g' rest
      | Err x => Err x
      end
  end.

(** [object] and [typing.Generic], the bases of [Provider]; neither
    namespace has an entry [STATE_FIELDS]. *)
Definition object_class : pyclass :=
  RootClass "object"
    [("__init__", CFunction "__init__"); ("__repr__", CFunction "__repr__");
     ("__eq__", CFunction "__eq__"); ("__hash__", CFunction "__hash__");
     ("__getattribute__", CFunction "__getattribute__");
     ("__setattr__", CFunction "__setattr__"); ("__doc__", CDoc)].

Definition Generic_class : pyclass :=
  Class "Generic"
    [("__class_getitem__", CFunction "__class_getitem__");
     ("__init_subclass__", CFunction "__init_subclass__");
     ("__slots__", CTuple []); ("__doc__", CDoc)]
    object_class.

(** [class Provider(Generic[VT])] of [__init__.py], lines 30-60. *)
Definition Provider_body : list stmt :=
  [Doc; Def "__init__"; Def "_provide"; Def "set"; Def "get"; Def "reset"].

(** Globals of [providers.py] after its [from simple_di import ...]. *)
Definition init_globals : result globals :=
  exec_mstmt [("Generic", Generic_class)]
    (ClassStmt "Provider" "Generic" Provider_body).

(** The class statements of [providers.py], in source order. *)
Definition Static_stmt : mstmt :=
  ClassStmt "Static" "Provider"
    [Doc;
     Assign "STATE_FIELDS" (EAdd (EAttr "Provider" "STATE_FIELDS") (ETuple ["_value"]));
     Def "__init__"; Def "_provide"].

Definition Callable_stmt : mstmt :=
  ClassStmt "Callable" "Provider"
    [Doc;
     Assign "STATE_FIELDS"
       (EAdd (EAttr "Provider" "STATE_FIELDS") (ETuple ["_args"; "_kwargs"; "_func"]));
     Def "__init__"; Def "_provide"; Def "__get__"].

Definition MemoizedCallable_stmt : mstmt :=
  ClassStmt "MemoizedCallable" "Callable"
    [Doc;
     Assign "STATE_FIELDS" (EAdd (EAttr "Callable" "STATE_FIELDS") (ETuple ["_cache"]));
     Def "__init__"; Def "_provide"].

Definition Configuration_stmt : mstmt :=
  ClassStmt "Configuration" "Provider"
    [Doc;
     Assign "STATE_FIELDS"
       (EAdd (EAttr "Provider" "STATE_FIELDS") (ETuple ["_data"; "fallback"]));
     Def "__init__"; Def "set"; Def "get"; Def "reset";
     Def "__getattr__"; Def "__repr__"].

Definition ConfigurationItem_stmt : mstmt :=
  ClassStmt "_ConfigurationItem" "Provider"
    [Assign "STATE_FIELDS"
       (EAdd (EAttr "Provider" "STATE_FIELDS") (ETuple ["_config"; "_path"]));
     Def "__init__"; Def "set"; Def "get"; Def "reset";
     Def "__getattr__"; Def "__repr__"].

Definition providers_module : list mstmt :=
  [Static_stmt; Callable_stmt; MemoizedCallable_stmt;
   Alias "Factory" "Callable"; Alias "SingletonFactory" "MemoizedCallable";
   Configuration_stmt; ConfigurationItem_stmt].

(** [from simple_di.providers import name]: run the module body, then
    look the name up in its globals. *)
Definition import_from (name : string) : result pyclass :=
  match init_globals with
  | Ok g =>
      match exec_module g providers_module with
      | Ok g' => lookup_global g' name
      | Err x => Err x
      end
  | Err x => Err x
  end.

(** The statements of the module up to and including the one that
    binds [name]. *)
Fixpoint upto (name : string) (m : list mstmt) : list mstmt :=
  match m with
  | [] => []
  | ClassStmt n b body :: rest =>
      if String.eqb n name then [ClassStmt n b body]
      else ClassStmt n b body :: upto name rest
  | Alias t s :: rest =>
      if String.eqb t name then [Alias t s] else Alias t s :: upto name rest
  end.

Definition concrete_classes : list string :=
  ["Static"; "Callable"; "MemoizedCallable"; "Configuration"; "_ConfigurationItem"].

End ClassDef.

(** ** Values, providers and the store *)

(** Payload of an immutable object. *)
Inductive atom :=
| AInt (z : Z)
| AStr (s : string).

(** A Python value as the package sees it.  [VSentinel] is the one
    instance of [_SentinelClass] the package creates ([sentinel], exported
    as [not_passed]); [VObj o a] is the immutable object with identity [o];
    [VDict l] is a reference to the dict object at [l]; [VProv p] is a
    reference to a provider object. *)
Inductive value :=
| VNone
| VSentinel
| VObj (o : positive) (a : atom)
| VDict (l : positive)
| VProv (p : provider)
with provider :=
| PBase (id : positive)
| PStatic (id : positive) (_value : value)
| PCallable (id : positive) (_func : string)
    (_args : list value) (_kwargs : list (string * value))
| PMemoizedCallable (id : positive) (_func : string)
    (_args : list value) (_kwargs : list (string * value))
| PConfiguration (c : configuration)
| PConfigurationItem (id : positive) (_config : configuration) (_path : list string)
with configuration :=
| Config (id : positive) (fallback : value).

Definition provider_id (p : provider) : positive :=
  match p with
  | PBase id | PStatic id _ | PCallable id _ _ _ | PMemoizedCallable id _ _ _
  | PConfigurationItem id _ _ => id
  | PConfiguration (Config id _) => id
  end.

Definition config_id (c : configuration) : positive :=
  match c with Config id _ => id end.

Definition fallback (c : configuration) : value :=
  match c with Config _ fb => fb end.

(** [sentinel = _SentinelClass()] and its public name [not_passed]. *)
Definition sentinel : value := VSentinel.
Definition not_passed : value := sentinel.

(** [isinstance(v, _SentinelClass)], [isinstance(v, Provider)] and
    [v is None]. *)
Definition is_sentinel (v : value) : bool :=
  match v with VSentinel => true | _ => false end.

Definition is_provider (v : value) : bool :=
  match v with VProv _ => true | _ => false end.

Definition is_none (v : value) : bool :=
  match v with VNone => true | _ => false end.

(** [a is b]: object identity. *)
Definition py_is (a b : value) : bool :=
  match a, b with
  | VNone, VNone => true
  | VSentinel, VSentinel => true
  | VObj o1 _, VObj o2 _ => bool_decide (o1 = o2)
  | VDict l1, VDict l2 => bool_decide (l1 = l2)
  | VProv p1, VProv p2 => bool_decide (provider_id p1 = provider_id p2)
  | _, _ => false
  end.

(** Who called a wrapped function: the [_provide] of a provider, or the
    closure built by [_inject]. *)
Inductive site :=
| ByProvider (id : positive)
| ByWrapper.

(** One invocation of a user function, with the arguments it received. *)
Record call := Call {
  call_site : site;
  call_func : string;
  call_args : list value;
  call_kwargs : list (string * value)
}.

Record state := State {
  overrides : gmap positive value;
  caches : gmap positive value;
  datas : gmap positive value;
  heap : gmap positive (gmap string value);
  log : list call
}.

Definition empty_state : state := State ∅ ∅ ∅ ∅ [].

(** Attribute reads; [__init__] stores the sentinel in [_override] and
    [_cache], and in [_data] when no data is passed. *)
Definition override (st : state) (id : positive) : value :=
  default VSentinel (overrides st !! id).

Definition cache (st : state) (id : positive) : value :=
  default VSentinel (caches st !! id).

Definition data (st : state) (id : positive) : value :=
  default VSentinel (datas st !! id).

Definition set_override (id : positive) (v : value) (st : state) : state :=
  State (<[id := v]> (overrides st)) (caches st) (datas st) (heap st) (log st).

Definition set_cache (id : positive) (v : value) (st : state) : state :=
  State (overrides st) (<[id := v]> (caches st)) (datas st) (heap st) (log st).

Definition set_data (id : positive) (v : value) (st : state) : state :=
  State (overrides st) (caches st) (<[id := v]> (datas st)) (heap st) (log st).

Definition set_heap (h : gmap positive (gmap string value)) (st : state) : state :=
  State (overrides st) (caches st) (datas st) h (log st).

Definition add_call (c : call) (st : state) : state :=
  State (overrides st) (caches st) (datas st) (heap st) (log st ++ [c]).

(** ** The monad of method bodies *)

Definition M (A : Type) : Type := state → result A * state.

Definition ret {A} (a : A) : M A := fun st => (Ok a, st).

Definition raise {A} (e : exn) : M A := fun st => (Err e, st).

Definition bind {A B} (m : M A) (k : A → M B) : M B :=
  fun st =>
    match m st with
    | (Ok a, st') => k a st'
    | (Err e, st') => (Err e, st')
    end.

Declare Scope py_scope.
Delimit Scope py_scope with py.
Notation "x <- m ;; k" := (bind m (fun x => k))
  (at level 100, m at next level, right associativity) : py_scope.
Notation "m ;;; k" := (bind m (fun _ => k))
  (at level 100, right associativity) : py_scope.
Open Scope py_scope.

Definition modify (f : state → state) : M unit := fun st => (Ok tt, f st).

(** ** Dict operations used by the configuration path provider *)

(** [cursor[k]]: [KeyError] on a dict without the key, [TypeError] on a
    value that is not subscriptable. *)
Definition getitem (cursor : value) (k : string) : M value :=
  fun st =>
    match cursor with
    | VDict l =>
        match heap st !! l with
        | Some d =>
            match d !! k with
            | Some v => (Ok v, st)
            | None => (Err (KeyError k), st)
            end
        | None => (Err Dangling, st)
        end
    | _ => (Err TypeError, st)
    end.

(** [cursor.get(k, dflt)]: providers have a [get] that takes no argument
    ([TypeError]); [None], ints and strings have no [get]. *)
Definition dict_get (cursor : value) (k : string) (dflt : value) : M value :=
  fun st =>
    match cursor with
    | VDict l =>
        match heap st !! l with
        | Some d => (Ok (default dflt (d !! k)), st)
        | None => (Err Dangling, st)
        end
    | VProv _ => (Err TypeError, st)
    | _ => (Err (AttributeError "get"), st)
    end.

(** [cursor[k] = v]. *)
Definition setitem (cursor : value) (k : string) (v : value) : M unit :=
  fun st =>
    match cursor with
    | VDict l =>
        match heap st !! l with
        | Some d => (Ok tt, set_heap (<[l := <[k := v]> d]> (heap st)) st)
        | None => (Err Dangling, st)
        end
    | _ => (Err TypeError, st)
    end.

(** [dict()]: a new, empty dict object. *)
Definition new_dict : M value :=
  fun st =>
    let l := fresh (dom (heap st)) in
    (Ok (VDict l), set_heap (<[l := ∅]> (heap st)) st).

(** ** Signatures: the part of [inspect] that [_inject] relies on

    Parameters are positional-or-keyword, with or without a default, which
    is what a plain [def f(x, y=Provide[p])] declares. *)

Record param := Param {
  p_name : string;
  p_default : option value
}.

(** A user function: its name in the function table and its signature. *)
Record pyfunc := PyFunc {
  fn_name : string;
  fn_params : list param
}.

Fixpoint lookup_kw (k : string) (kwargs : list (string * value)) : option value :=
  match kwargs with
  | [] => None
  | (k', v) :: rest => if String.eqb k k' then Some v else lookup_kw k rest
  end.

Definition remove_kw (k : string) (kwargs : list (string * value))
  : list (string * value) :=
  List.filter (fun kv => negb (String.eqb k (fst kv))) kwargs.

(** Positional phase of [Signature._bind]: parameters are consumed in
    order; a positional value for a parameter also given by keyword, or one
    positional value too many, is a [TypeError]. *)
Fixpoint bind_positional (params : list param) (args : list value)
    (kwargs : list (string * value))
  : result (list (string * value) * list param) :=
  match args with
  | [] => Ok ([], params)
  | a :: rest =>
      match params with
      | [] => Err TypeError
      | p :: ps =>
          match lookup_kw (p_name p) kwargs with
          | Some _ => Err TypeError
          | None =>
              match bind_positional ps rest kwargs with
              | Ok (bound, remaining) => Ok ((p_name p, a) :: bound, remaining)
              | Err e => Err e
              end
          end
      end
  end.

(** Keyword phase with [partial=True]: a parameter without a value stays
    unbound; the keywords no parameter took are returned. *)
Fixpoint bind_keywords (params : list param) (kwargs : list (string * value))
  : list (string * value) * list (string * value) :=
  match params with
  | [] => ([], kwargs)
  | p :: ps =>
      match lookup_kw (p_name p) kwargs with
      | Some v =>
          let '(bound, unused) := bind_keywords ps (remove_kw (p_name p) kwargs) in
          ((p_name p, v) :: bound, unused)
      | None => bind_keywords ps kwargs
      end
  end.

(** [sig.bind_partial( *args, **kwargs).arguments]. *)
Definition bind_partial (params : list param) (args : list value)
    (kwargs : list (string * value)) : result (list (string * value)) :=
  match bind_positional params args kwargs with
  | Ok (bound, remaining) =>
      match bind_keywords remaining kwargs with
      | (bound', []) => Ok (bound ++ bound')
      | (_, _ :: _) => Err TypeError
      end
  | Err e => Err e
  end.

(** [BoundArguments.apply_defaults]. *)
Fixpoint apply_defaults (params : list param) (arguments : list (string * value))
  : list (string * value) :=
  match params with
  | [] => []
  | p :: ps =>
      match lookup_kw (p_name p) arguments with
      | Some v => (p_name p, v) :: apply_defaults ps arguments
      | None =>
          match p_default p with
          | Some d => (p_name p, d) :: apply_defaults ps arguments
          | None => apply_defaults ps arguments
          end
      end
  end.

(** [BoundArguments.args]: the values of the leading bound parameters. *)
Fixpoint bound_args (params : list param) (arguments : list (string * value))
  : list value :=
  match params with
  | [] => []
  | p :: ps =>
      match lookup_kw (p_name p) arguments with
      | Some v => v :: bound_args ps arguments
      | None => []
      end
  end.

Fixpoint bound_rest (params : list param) (arguments : list (string * value))
  : list (string * value) :=
  match params with
  | [] => []
  | p :: ps =>
      match lookup_kw (p_name p) arguments with
      | Some v => (p_name p, v) :: bound_rest ps arguments
      | None => bound_rest ps arguments
      end
  end.

(** [BoundArguments.kwargs]: the bound parameters after the first unbound
    one, by name. *)
Fixpoint bound_kwargs (params : list param) (arguments : list (string * value))
  : list (string * value) :=
  match params with
  | [] => []
  | p :: ps =>
      match lookup_kw (p_name p) arguments with
      | Some _ => bound_kwargs ps arguments
      | None => bound_rest ps arguments
      end
  end.

(** ** The classes of the package *)

Section Providers.

(** The table of user functions: what the function named [f] returns
    (or raises) on the given positional and keyword arguments; the
    calls made so far are an input, so that a function may count its
    invocations. *)
Variable fn_sem :
  string → list call → list value → list (string * value) → result value.

(** [func( *args, **kwargs)]. *)
Definition invoke (s : site) (f : string) (args : list value)
    (kwargs : list (string * value)) : M value :=
  fun st => (fn_sem f (log st) args kwargs, add_call (Call s f args kwargs) st).

(** *** [class Provider] *)

(** Object creation: an identifier no provider object uses yet. *)
Definition new_object : M positive :=
  fun st => (Ok (fresh (dom (overrides st))), st).

Definition Provider_init (id : positive) : M unit :=
  modify (set_override id VSentinel).

Definition Provider_provide : M value := raise NotImplementedError.

Definition Provider_set (id : positive) (v : value) : M unit :=
  modify (set_override id v).

Definition Provider_get (id : positive) (_provide : M value) : M value :=
  fun st =>
    if negb (is_sentinel (override st id)) then (Ok (override st id), st)
    else _provide st.

Definition Provider_reset (id : positive) : M unit :=
  modify (set_override id VSentinel).

(** [Provide[provider]]. *)
Definition Provide (p : provider) : value := VProv p.

(** *** [_inject_args], [_inject_kwargs] *)

Definition _inject_args (get : provider → M value)
  : list value → M (list value) :=
  fix go (args : list value) : M (list value) :=
    match args with
    | [] => ret []
    | a :: rest =>
        v <- match a with VProv p => get p | _ => ret a end;;
        vs <- go rest;;
        ret (v :: vs)
    end.

Definition _inject_kwargs (get : provider → M value)
  : list (string * value) → M (list (string * value)) :=
  fix go (kwargs : list (string * value)) : M (list (string * value)) :=
    match kwargs with
    | [] => ret []
    | (k, a) :: rest =>
        v <- match a with VProv p => get p | _ => ret a end;;
        vs <- go rest;;
        ret ((k, v) :: vs)
    end.

(** *** [class Static], [class Callable], [class MemoizedCallable] *)

(** [Static(value)]. *)
Definition Static_new (v : value) : M provider :=
  id <- new_object;;
  Provider_init id;;;
  ret (PStatic id v).

Definition Static_provide (_value : value) : M value := ret _value.

(** [Callable(func, *args, **kwargs)]. *)
Definition Callable_new (func : string) (args : list value)
    (kwargs : list (string * value)) : M provider :=
  id <- new_object;;
  Provider_init id;;;
  ret (PCallable id func args kwargs).

Definition Callable_provide (get : provider → M value) (id : positive)
    (_func : string) (_args : list value) (_kwargs : list (string * value))
  : M value :=
  args <- _inject_args get _args;;
  kwargs <- _inject_kwargs get _kwargs;;
  invoke (ByProvider id) _func args kwargs.

(** [MemoizedCallable(func, *args, **kwargs)]. *)
Definition MemoizedCallable_new (func : string) (args : list value)
    (kwargs : list (string * value)) : M provider :=
  id <- new_object;;
  Provider_init id;;;
  modify (set_cache id VSentinel);;;
  ret (PMemoizedCallable id func args kwargs).

Definition MemoizedCallable_provide (get : provider → M value) (id : positive)
    (_func : string) (_args : list value) (_kwargs : list (string * value))
  : M value :=
  fun st =>
    if negb (is_sentinel (cache st id)) then (Ok (cache st id), st)
    else
      (args <- _inject_args get _args;;
       kwargs <- _inject_kwargs get _kwargs;;
       v <- invoke (ByProvider id) _func args kwargs;;
       modify (set_cache id v);;;
       ret v) st.

(** *** [class Configuration] *)

(** [Configuration(data=sentinel, fallback=sentinel)]; an argument the
    caller does not pass is [None] here. *)
Definition Configuration_new (data fallback : option value) : M provider :=
  id <- new_object;;
  Provider_init id;;;
  modify (set_data id (default VSentinel data));;;
  ret (PConfiguration (Config id (default VSentinel fallback))).

Definition Configuration_set (c : configuration) (v : value) : M unit :=
  if is_sentinel v then ret tt
  else modify (set_data (config_id c) v).

Definition Configuration_get (c : configuration) : M value :=
  fun st =>
    if is_sentinel (data st (config_id c)) then
      if is_sentinel (fallback c) then
        (Err (ValueError "Configuration Provider not initialized"), st)
      else (Ok (fallback c), st)
    else (Ok (data st (config_id c)), st).

Definition Configuration_reset (c : configuration) : M unit :=
  raise NotImplementedError.

(** *** [class _ConfigurationItem] *)

(** [_ConfigurationItem(config=..., path=...)]: a new object whose
    [__init__] runs [Provider.__init__]. *)
Definition ConfigurationItem_new (config : configuration) (path : list string)
  : M provider :=
  id <- new_object;;
  Provider_init id;;;
  ret (PConfigurationItem id config path).

(** The [for] loop of [_ConfigurationItem.set], over [self._path[:-1]]. *)
Fixpoint set_loop (segs : list string) (_cursor : value) : M value :=
  match segs with
  | [] => ret _cursor
  | i :: rest =>
      _next <- dict_get _cursor i VSentinel;;
      _next <- (if is_sentinel _next then
                  d <- new_dict;;
                  setitem _cursor i d;;;
                  ret d
                else ret _next);;
      set_loop rest _next
  end.

Definition ConfigurationItem_set (_config : configuration) (_path : list string)
    (v : value) : M unit :=
  if is_sentinel v then ret tt
  else
    _cursor <- Configuration_get _config;;
    _cursor <- set_loop (removelast _path) _cursor;;
    match last _path with
    | Some k => setitem _cursor k v
    | None => raise IndexError
    end.

(** The [for] loop of [_ConfigurationItem.get], over [self._path]. *)
Fixpoint get_loop (segs : list string) (_cursor : value) : M value :=
  match segs with
  | [] => ret _cursor
  | i :: rest =>
      _cursor <- getitem _cursor i;;
      get_loop rest _cursor
  end.

Definition ConfigurationItem_get (_config : configuration) (_path : list string)
  : M value :=
  _cursor <- Configuration_get _config;;
  if negb (is_sentinel (fallback _config)) && py_is _cursor (fallback _config)
  then ret (fallback _config)
  else get_loop _path _cursor.

Definition ConfigurationItem_reset : M unit := raise NotImplementedError.

(** The two [__getattr__] methods; Python calls them only for a name
    that ordinary attribute lookup does not find. *)
Definition Configuration_getattr (c : configuration) (name : string)
  : M provider :=
  if bool_decide (name ∈ ["_data"; "_override"; "fallback"]) then
    raise (AttributeError "")
  else ConfigurationItem_new c [name].

Definition ConfigurationItem_getattr (_config : configuration)
    (_path : list string) (name : string) : M provider :=
  if bool_decide (name ∈ ["_config"; "_path"; "_override"]) then
    raise (AttributeError "")
  else ConfigurationItem_new _config (_path ++ [name]).

(** *** Method dispatch on the class of the receiver *)

Fixpoint get (p : provider) : M value :=
  match p with
  | PBase id => Provider_get id Provider_provide
  | PStatic id v => Provider_get id (Static_provide v)
  | PCallable id f args kwargs =>
      Provider_get id (Callable_provide get id f args kwargs)
  | PMemoizedCallable id f args kwargs =>
      Provider_get id (MemoizedCallable_provide get id f args kwargs)
  | PConfiguration c => Configuration_get c
  | PConfigurationItem _ c path => ConfigurationItem_get c path
  end.

Definition set (p : provider) (v : value) : M unit :=
  match p with
  | PBase id | PStatic id _ | PCallable id _ _ _ | PMemoizedCallable id _ _ _ =>
      Provider_set id v
  | PConfiguration c => Configuration_set c v
  | PConfigurationItem _ c path => ConfigurationItem_set c path v
  end.

Definition reset (p : provider) : M unit :=
  match p with
  | PBase id | PStatic id _ | PCallable id _ _ _ | PMemoizedCallable id _ _ _ =>
      Provider_reset id
  | PConfiguration c => Configuration_reset c
  | PConfigurationItem _ _ _ => ConfigurationItem_reset
  end.

(** [_provide] of the receiver's class. *)
Definition provide (p : provider) : M value :=
  match p with
  | PBase _ | PConfiguration _ | PConfigurationItem _ _ _ => Provider_provide
  | PStatic _ v => Static_provide v
  | PCallable id f args kwargs => Callable_provide get id f args kwargs
  | PMemoizedCallable id f args kwargs =>
      MemoizedCallable_provide get id f args kwargs
  end.

(** [p.name] for a name that is not an attribute or method of [p]. *)
Definition getattr (p : provider) (name : string) : M provider :=
  match p with
  | PConfiguration c => Configuration_getattr c name
  | PConfigurationItem _ c path => ConfigurationItem_getattr c path name
  | _ => raise (AttributeError name)
  end.

(** *** [_inject] and [inject] *)

(** The closure [_] that [_inject(func, respect_none)] returns, applied
    to [args] and [kwargs]. *)
Definition _inject (func : pyfunc) (respect_none : bool)
    (args : list value) (kwargs : list (string * value)) : M value :=
  let filtered_args :=
    if negb respect_none then List.filter (fun a => negb (is_sentinel a)) args
    else List.filter (fun a => negb (is_none a)) args in
  let filtered_kwargs :=
    if negb respect_none then
      List.filter (fun kv => negb (is_sentinel (snd kv))) kwargs
    else List.filter (fun kv => negb (is_none (snd kv))) kwargs in
  match bind_partial (fn_params func) filtered_args filtered_kwargs with
  | Err e => raise e
  | Ok arguments =>
      let arguments := apply_defaults (fn_params func) arguments in
      a <- _inject_args get (bound_args (fn_params func) arguments);;
      k <- _inject_kwargs get (bound_kwargs (fn_params func) arguments);;
      invoke ByWrapper (fn_name func) a k
  end.

(** The first argument of [inject]: [None], a callable, or anything else. *)
Inductive inject_func :=
| FuncNone
| FuncCallable (f : pyfunc)
| FuncOther (v : value).

(** What [inject] returns: the wrapped callable, or (for [func=None]) a
    decorator still waiting for the callable. *)
Inductive injected :=
| Wrapped (w : list value → list (string * value) → M value)
| Decorator (d : pyfunc → list value → list (string * value) → M value).

(** [inject(func=None, respect_none=True)]; an argument the caller does
    not pass is [None] here and takes the declared default. *)
Definition inject (func : option inject_func) (respect_none : option bool)
  : result injected :=
  let func := default FuncNone func in
  let respect_none := default true respect_none in
  match func with
  | FuncNone => Ok (Decorator (fun f => _inject f respect_none))
  | FuncCallable f => Ok (Wrapped (_inject f respect_none))
  | FuncOther _ => Err (ValueError "You must pass either int or str")
  end.

End Providers.

(** ** Plain data, for comparing dict contents by value

    [denote n h v] is the nested data that [v] stands for in the heap [h]
    (what Python's [==] compares), down to depth [n]. *)

#[warnings="-register-all"]
Inductive pydata :=
| DNone
| DInt (z : Z)
| DStr (s : string)
| DDict (items : gmap string pydata).

Fixpoint denote (n : nat) (h : gmap positive (gmap string value)) (v : value)
  : option pydata :=
  match n with
  | O => None
  | S n' =>
      match v with
      | VNone => Some DNone
      | VObj _ (AInt z) => Some (DInt z)
      | VObj _ (AStr s) => Some (DStr s)
      | VDict l =>
          match h !! l with
          | Some d =>
              let items := omap (denote n' h) d in
              if bool_decide (size items = size d) then Some (DDict items)
              else None
          | None => None
          end
      | VSentinel | VProv _ => None
      end
  end.

(** ** Sequences of calls on providers *)

(** [p.a.b.c]: attribute access, left to right. *)
Fixpoint getattrs (p : provider) (names : list string) : M provider :=
  match names with
  | [] => ret p
  | n :: rest => q <- getattr p n;; getattrs q rest
  end.

(** Calls made by the [_provide] of the provider object [id]. *)
Definition calls_by (id : positive) (l : list call) : nat :=
  length (List.filter
            (fun c => match call_site c with
                      | ByProvider i => bool_decide (i = id)
                      | ByWrapper => false
                      end) l).

(** Provider objects that resolving [p] may call [get] on, [p] excluded. *)
Fixpoint nested_ids (p : provider) : list positive :=
  match p with
  | PCallable _ _ args kwargs | PMemoizedCallable _ _ args kwargs =>
      flat_map (fun a => match a with
                         | VProv q => provider_id q :: nested_ids q
                         | _ => []
                         end) args
      ++ flat_map (fun kv => match snd kv with
                             | VProv q => provider_id q :: nested_ids q
                             | _ => []
                             end) kwargs
  | _ => []
  end.

(** ** The specification's words, as relations on the dict heap *)

(** The path walk of [get]: each segment is a key lookup in the dict the
    cursor refers to, and the value found becomes the cursor. *)
Inductive walks (h : gmap positive (gmap string value))
  : value → list string → value → Prop :=
| walks_nil c : walks h c [] c
| walks_cons l d k v rest r :
    h !! l = Some d → d !! k = Some v → walks h v rest r →
    walks h (VDict l) (k :: rest) r.

(** No dict stores the sentinel: stored values are domain values. *)
Definition sentinel_free (h : gmap positive (gmap string value)) : Prop :=
  ∀ l d k v, h !! l = Some d → d !! k = Some v → is_sentinel v = false.

(** The descent of [set]: an existing key's value is descended into and
    the heap stays as it is; a missing key gets a new empty dict, which is
    descended into. *)
Inductive descends
  : gmap positive (gmap string value) → value → list string →
    gmap positive (gmap string value) → value → Prop :=
| descends_nil h c : descends h c [] h c
| descends_present h l d i next rest h' c' :
    h !! l = Some d → d !! i = Some next →
    descends h next rest h' c' →
    descends h (VDict l) (i :: rest) h' c'
| descends_missing h l d i l' rest h' c' :
    h !! l = Some d → d !! i = None → l' ∉ dom h →
    descends (<[l := <[i := VDict l']> d]> (<[l' := ∅]> h)) (VDict l') rest h' c' →
    descends h (VDict l) (i :: rest) h' c'.

(** A path along which [set] can descend: the segments present hold dicts,
    down to the dict that receives the value, or a segment is missing. *)
Inductive settable (h : gmap positive (gmap string value))
  : value → list string → Prop :=
| settable_nil l d : h !! l = Some d → settable h (VDict l) []
| settable_present l d i next rest :
    h !! l = Some d → d !! i = Some next → settable h next rest →
    settable h (VDict l) (i :: rest)
| settable_missing l d i rest :
    h !! l = Some d → d !! i = None → settable h (VDict l) (i :: rest).

(** The write of [set] at key [k] does not replace a link of its own path:
    a dict reached through a prefix of [pre] that is followed by [k] is not
    reached again at the end of that walk. *)
Definition no_revisit (h : gmap positive (gmap string value)) (root : value)
    (pre : list string) (k : string) : Prop :=
  ∀ pre1 rest l,
    pre = pre1 ++ k :: rest → walks h root pre1 (VDict l) →
    ¬ walks h (VDict l) (k :: rest) (VDict l).

(** No dict is reached from itself. *)
Definition acyclic (h : gmap positive (gmap string value)) : Prop :=
  ∀ l segs, segs ≠ [] → ¬ walks h (VDict l) segs (VDict l).

(** ** Callers *)

(** A value a caller passes as a real argument: not [None], not the
    sentinel, not a provider. *)
Definition plain (v : value) : Prop :=
  is_none v = false ∧ is_sentinel v = false ∧ is_provider v = false.

(** The classes that inherit [set] and [get] from [Provider]. *)
Definition inherits_set_get (p : provider) : bool :=
  match p with
  | PBase _ | PStatic _ _ | PCallable _ _ _ _ | PMemoizedCallable _ _ _ _ => true
  | PConfiguration _ | PConfigurationItem _ _ _ => false
  end.

(** [def f(x, y=Provide[p])]. *)
Definition f_xy (name : string) (p : provider) : pyfunc :=
  PyFunc name [Param "x" None; Param "y" (Some (Provide p))].

(** [inject(func, respect_none)( *args, **kwargs)]: calling what [inject]
    returned for a callable. *)
Definition call_wrapped (r : result injected) (args : list value)
    (kwargs : list (string * value)) : M value :=
  match r with
  | Ok (Wrapped w) => w args kwargs
  | Ok (Decorator _) => raise TypeError
  | Err e => raise e
  end.

(** [inject(respect_none=...)(func)( *args, **kwargs)]: the decorator form. *)
Definition call_decorated (r : result injected) (func : pyfunc)
    (args : list value) (kwargs : list (string * value)) : M value :=
  match r with
  | Ok (Decorator d) => d func args kwargs
  | Ok (Wrapped _) => raise TypeError
  | Err e => raise e
  end.

(** What happens around a provider [p] between its [get] calls. *)
Inductive op :=
| OpGet
| OpReset
| OpSetOther (q : provider) (v : value)
| OpResetOther (q : provider).

(** The operation leaves the attributes of the object [id] to [p] itself. *)
Definition other_than (id : positive) (o : op) : Prop :=
  match o with
  | OpGet | OpReset => True
  | OpSetOther q _ | OpResetOther q => provider_id q ≠ id
  end.

(** The property holds of the provider an argument refers to, if any. *)
Definition on_arg (P : provider → Prop) (a : value) : Prop :=
  match a with VProv q => P q | _ => True end.

(** What a [get] may change: the log grows, caches may be filled; the
    overrides, the configuration data and the dicts stay as they are. *)
Definition get_frame (st st' : state) : Prop :=
  overrides st' = overrides st ∧ datas st' = datas st ∧ heap st' = heap st ∧
  ∃ l, log st' = log st ++ l.

(** The object [id] made no call and kept its cache. *)
Definition same_calls (id : positive) (st st' : state) : Prop :=
  calls_by id (log st') = calls_by id (log st) ∧ cache st' id = cache st id.

Section Runs.
Variable fn_sem :
  string → list call → list value → list (string * value) → result value.

(** Run the operations in order; the results of the [get] calls on [p]
    are collected. *)
Fixpoint run_ops (p : provider) (ops : list op) (st : state)
  : list (result value) * state :=
  match ops with
  | [] => ([], st)
  | OpGet :: rest =>
      let (r, st1) := get fn_sem p st in
      let (rs, st2) := run_ops p rest st1 in
      (r :: rs, st2)
  | OpReset :: rest => run_ops p rest (snd (reset p st))
  | OpSetOther q v :: rest => run_ops p rest (snd (set q v st))
  | OpResetOther q :: rest => run_ops p rest (snd (reset q st))
  end.

(** [n] successive calls of [p.get()]. *)
Fixpoint get_n (n : nat) (p : provider) (st : state) : state :=
  match n with
  | O => st
  | S n' => get_n n' p (snd (get fn_sem p st))
  end.

(** Argument resolution in the words of the specification: a provider is
    replaced by the result of its [get] in the current state, any other
    value passes through. *)
Inductive resolved_args : list value → state → list value → state → Prop :=
| resolved_nil st : resolved_args [] st [] st
| resolved_plain a rest st vs st' :
    is_provider a = false → resolved_args rest st vs st' →
    resolved_args (a :: rest) st (a :: vs) st'
| resolved_prov q rest st v st1 vs st' :
    get fn_sem q st = (Ok v, st1) → resolved_args rest st1 vs st' →
    resolved_args (VProv q :: rest) st (v :: vs) st'.

Inductive resolved_kwargs
  : list (string * value) → state → list (string * value) → state → Prop :=
| resolved_kw_nil st : resolved_kwargs [] st [] st
| resolved_kw_plain k a rest st vs st' :
    is_provider a = false → resolved_kwargs rest st vs st' →
    resolved_kwargs ((k, a) :: rest) st ((k, a) :: vs) st'
| resolved_kw_prov k q rest st v st1 vs st' :
    get fn_sem q st = (Ok v, st1) → resolved_kwargs rest st1 vs st' →
    resolved_kwargs ((k, VProv q) :: rest) st ((k, v) :: vs) st'.

(** Resolving [q] adds no call made by the object [id]. *)
Definition quiet (id : positive) (q : provider) : Prop :=
  ∀ st r st', get fn_sem q st = (r, st') → same_calls id st st'.

(** A function that returns a real value on every call. *)
Definition returns_real (f : string) : Prop :=
  ∀ history a k, ∃ v, fn_sem f history a k = Ok v ∧ is_sentinel v = false.

(** The arguments resolve in every state. *)
Definition always_resolves (args : list value) (kwargs : list (string * value))
  : Prop :=
  ∀ st, ∃ a st1 k st2,
    _inject_args (get fn_sem) args st = (Ok a, st1) ∧
    _inject_kwargs (get fn_sem) kwargs st1 = (Ok k, st2).

End Runs.

(** ** Concrete functions and objects used in the examples *)

Definition int_ (z : Z) : value := VObj (Z.to_pos (z + 1000)) (AInt z).
Definition str_ (o : positive) (s : string) : value := VObj o (AStr s).

(** ["second"] is [def f(x, y): return y]; ["counter"] returns how often
    it has been called, this call included; any other name raises. *)
Definition demo_fn (f : string) (history : list call) (args : list value)
    (kwargs : list (string * value)) : result value :=
  if String.eqb f "second" then
    match args, kwargs with
    | [x; y], [] => Ok y
    | _, _ => Err TypeError
    end
  else if String.eqb f "counter" then
    Ok (int_ (Z.of_nat
                (S (length (List.filter
                              (fun c => String.eqb (call_func c) "counter")
                              history)))))
  else Err (UserError f).

(** A state with one provider object (number 1) and the given data and
    dicts. *)
Definition one_object (data : value) (h : gmap positive (gmap string value))
  : state :=
  State {[1%positive := VSentinel]} ∅ {[1%positive := data]} h [].

(** [config = Configuration(data={"a": {"b": 1}})]. *)
Definition config : configuration := Config 1 VSentinel.

Definition st_a_b : state :=
  one_object (VDict 1)
    (<[1%positive := {["a" := VDict 2]}]> {[2%positive := {["b" := int_ 1]}]}).

(** [config = Configuration(data={"a": {}})]. *)
Definition st_a : state :=
  one_object (VDict 1) (<[1%positive := {["a" := VDict 2]}]> {[2%positive := ∅]}).

(** [config = Configuration(fallback="X")]. *)
Definition config_X : configuration := Config 1 (str_ 7 "X").
Definition st_X : state := one_object VSentinel ∅.

(** [config = Configuration(fallback={"a": 1})]. *)
Definition config_fb : configuration := Config 1 (VDict 1).
Definition st_fb : state := one_object VSentinel {[1%positive := {["a" := int_ 1]}]}.

(** [d = {}; d["a"] = d; config = Configuration(data=d)]. *)
Definition st_cycle : state := one_object (VDict 1) {[1%positive := {["a" := VDict 1]}]}.

(** [p = Static(42)] and [q = Static(1)], objects 1 and 2. *)
Definition p42 : provider := PStatic 1 (int_ 42).
Definition st_p : state := State {[1%positive := VSentinel]} ∅ ∅ ∅ [].
Definition q1 : provider := PStatic 2 (int_ 1).

(** [m = MemoizedCallable(counter, q)] and [c = Callable(counter, q, k=q)],
    object 3. *)
Definition memo : provider := PMemoizedCallable 3 "counter" [VProv q1] [].
Definition plain_callable : provider :=
  PCallable 3 "counter" [VProv q1; int_ 3] [("k", VProv q1)].
Definition st_q : state :=
  State (<[2%positive := VSentinel]> {[3%positive := VSentinel]}) ∅ ∅ ∅ [].

(** ** Further vocabulary and example objects *)


(** A function that never returns a real value: it raises, or returns the
    sentinel. *)
Definition never_real
    (fn_sem : string → list call → list value → list (string * value) → result value)
    (f : string) : Prop :=
  ∀ history a k,
    match fn_sem f history a k with
    | Ok v => is_sentinel v = true
    | Err _ => True
    end.


(** [MemoizedCallable(boom, q)], where [boom] always raises. *)
Definition memo_boom : provider := PMemoizedCallable 3 "boom" [VProv q1] [].


(** [Callable(counter, Provider())], object 3 over the abstract object 5. *)
Definition over_abstract : provider := PCallable 3 "counter" [VProv (PBase 5)] [].

(** [config = Configuration(data={"a": 1})]. *)
Definition st_a_1 : state :=
  one_object (VDict 1) {[1%positive := {["a" := int_ 1]}]}.

(** A value that is not a dict and not a provider: [None], an int, a
    string. *)
Definition scalar (v : value) : Prop :=
  v = VNone ∨ ∃ o a, v = VObj o a.

(** * Properties *)

(** ** Import-time behaviour of [providers.py] *)

Lemma assoc_without {A} (k : string) (ns : list (string * A)) :
  ClassDef.assoc k (List.filter (fun kv => negb (String.eqb k (fst kv))) ns) = None.
Proof.
  induction ns as [|[k' v] ns IH]; simpl; [reflexivity|].
  destruct (String.eqb k k') eqn:E; simpl; [exact IH|].
  rewrite E. exact IH.
Qed.

(** ** Induction on providers through their argument lists *)

Section ProviderInd.
Variable P : provider → Prop.

Hypothesis HBase : ∀ id, P (PBase id).
Hypothesis HStatic : ∀ id v, P (PStatic id v).
Hypothesis HCallable : ∀ id f args kwargs,
  Forall (on_arg P) args → Forall (fun kv => on_arg P (snd kv)) kwargs →
  P (PCallable id f args kwargs).
Hypothesis HMemoized : ∀ id f args kwargs,
  Forall (on_arg P) args → Forall (fun kv => on_arg P (snd kv)) kwargs →
  P (PMemoizedCallable id f args kwargs).
Hypothesis HConfiguration : ∀ c, P (PConfiguration c).
Hypothesis HItem : ∀ id c path, P (PConfigurationItem id c path).

Fixpoint provider_nested_ind (p : provider) : P p :=
  let on_args :=
    fix go (l : list value) : Forall (on_arg P) l :=
      match l with
      | [] => @List.Forall_nil _ (on_arg P)
      | a :: l' =>
          @List.Forall_cons _ (on_arg P) a l'
            (match a return on_arg P a with
             | VProv q => provider_nested_ind q
             | _ => I
             end) (go l')
      end in
  let on_kwargs :=
    fix go (l : list (string * value)) : Forall (fun kv => on_arg P (snd kv)) l :=
      match l with
      | [] => @List.Forall_nil _ _
      | (k, a) :: l' =>
          @List.Forall_cons _ (fun kv => on_arg P (snd kv)) (k, a) l'
            (match a return on_arg P a with
             | VProv q => provider_nested_ind q
             | _ => I
             end) (go l')
      end in
  match p with
  | PBase id => HBase id
  | PStatic id v => HStatic id v
  | PCallable id f args kwargs =>
      HCallable id f args kwargs (on_args args) (on_kwargs kwargs)
  | PMemoizedCallable id f args kwargs =>
      HMemoized id f args kwargs (on_args args) (on_kwargs kwargs)
  | PConfiguration c => HConfiguration c
  | PConfigurationItem id c path => HItem id c path
  end.

End ProviderInd.

Section Properties.
Variable fn_sem :
  string → list call → list value → list (string * value) → result value.

(** *** Reading through a path *)

Lemma getitem_state c k st r st' : getitem c k st = (r, st') → st' = st.
Proof.
  unfold getitem. intros E.
  destruct c; try (inversion E; reflexivity).
  destruct (heap st !! l) as [d|]; [|inversion E; reflexivity].
  destruct (d !! k); inversion E; reflexivity.
Qed.

Lemma get_loop_state segs : ∀ c st r st', get_loop segs c st = (r, st') → st' = st.
Proof.
  induction segs as [|i segs IH]; intros c st r st' E; cbn in E.
  - inversion E; reflexivity.
  - unfold bind in E. destruct (getitem c i st) as [[v|e] st1] eqn:E1.
    + apply getitem_state in E1. subst st1. eauto.
    + apply getitem_state in E1. inversion E; subst; reflexivity.
Qed.

Lemma Configuration_get_state c st r st' :
  Configuration_get c st = (r, st') → st' = st.
Proof.
  unfold Configuration_get. intros E.
  repeat (destruct (is_sentinel _)); inversion E; reflexivity.
Qed.

Lemma Configuration_get_real c st v st' :
  Configuration_get c st = (Ok v, st') → is_sentinel v = false.
Proof.
  unfold Configuration_get. intros E.
  destruct (is_sentinel (data st (config_id c))) eqn:Hd.
  - destruct (is_sentinel (fallback c)) eqn:Hf; inversion E; subst. exact Hf.
  - inversion E; subst. exact Hd.
Qed.

Lemma py_is_sentinel_r v w :
  py_is v w = true → is_sentinel v = false → is_sentinel w = false.
Proof. destruct v, w; cbn; congruence. Qed.

Lemma ConfigurationItem_get_state c path st r st' :
  ConfigurationItem_get c path st = (r, st') → st' = st.
Proof.
  unfold ConfigurationItem_get, bind. intros E.
  destruct (Configuration_get c st) as [[v|e] st1] eqn:E1;
    apply Configuration_get_state in E1; subst st1.
  - destruct (_ && _).
    + inversion E; reflexivity.
    + eapply get_loop_state; eauto.
  - inversion E; reflexivity.
Qed.

Lemma get_loop_walks segs : ∀ c st v,
  get_loop segs c st = (Ok v, st) ↔ walks (heap st) c segs v.
Proof.
  induction segs as [|i segs IH]; intros c st v; cbn.
  - split.
    + intros E. inversion E; subst. constructor.
    + intros W. inversion W; subst. reflexivity.
  - unfold bind, getitem. split.
    + intros E. destruct c; try discriminate.
      destruct (heap st !! l) as [d|] eqn:Hl; [|discriminate].
      destruct (d !! i) as [x|] eqn:Hi; [|discriminate].
      econstructor; eauto. by apply IH.
    + intros W. inversion W as [|l d k x rest r Hl Hi Hw]; subst.
      rewrite Hl, Hi. by apply IH.
Qed.

Lemma get_loop_missing pre : ∀ c st l d k post,
  walks (heap st) c pre (VDict l) → heap st !! l = Some d → d !! k = None →
  get_loop (pre ++ k :: post) c st = (Err (KeyError k), st).
Proof.
  induction pre as [|i pre IH]; intros c st l d k post W Hl Hk; cbn.
  - inversion W; subst. unfold bind, getitem. by rewrite Hl, Hk.
  - inversion W as [|l1 d1 k1 x rest r Hl1 Hi Hw]; subst.
    unfold bind, getitem. rewrite Hl1, Hi. eauto.
Qed.

(** [get] on a path provider over an initialized configuration follows the
    walk, and fails at the first segment a dict lacks. *)
Lemma path_get_walks (c : configuration) (id : positive) (path : list string)
    (st : state) (l0 : positive) :
  data st (config_id c) = VDict l0 →
  py_is (VDict l0) (fallback c) = false →
  (∀ v, get fn_sem (PConfigurationItem id c path) st = (Ok v, st)
        ↔ walks (heap st) (VDict l0) path v) ∧
  (∀ pre k post l d,
     path = pre ++ k :: post →
     walks (heap st) (VDict l0) pre (VDict l) →
     heap st !! l = Some d → d !! k = None →
     get fn_sem (PConfigurationItem id c path) st = (Err (KeyError k), st)).
Proof.
  intros Hd Hf. cbn [get]. unfold ConfigurationItem_get, bind, Configuration_get.
  rewrite Hd. cbn [is_sentinel]. rewrite Hf, andb_false_r.
  destruct (is_sentinel (fallback c)); cbn [negb andb].
  all: split; [intros v; apply get_loop_walks
              |intros pre k post l d ->; apply get_loop_missing].
Qed.

(** *** The whole-tree fallback *)

Lemma getattr_config p name st q st' :
  getattr p name st = (Ok q, st') →
  datas st' = datas st ∧
  ∀ c, (p = PConfiguration c ∨ ∃ id path, p = PConfigurationItem id c path) →
       ∃ id path, q = PConfigurationItem id c path.
Proof.
  destruct p; cbn; try (unfold raise; discriminate).
  - unfold Configuration_getattr. destruct (bool_decide _); [unfold raise; discriminate|].
    unfold ConfigurationItem_new, bind, new_object, Provider_init, modify, ret.
    intros E. inversion E; subst. split; [reflexivity|].
    intros c' [Hc|(id & path & Hc)]; inversion Hc; subst. eauto.
  - unfold ConfigurationItem_getattr. destruct (bool_decide _); [unfold raise; discriminate|].
    unfold ConfigurationItem_new, bind, new_object, Provider_init, modify, ret.
    intros E. inversion E; subst. split; [reflexivity|].
    intros c' [Hc|(id' & path & Hc)]; inversion Hc; subst. eauto.
Qed.

Lemma getattrs_config names : ∀ p st q st' c,
  names ≠ [] →
  (p = PConfiguration c ∨ ∃ id path, p = PConfigurationItem id c path) →
  getattrs p names st = (Ok q, st') →
  datas st' = datas st ∧ ∃ id path, q = PConfigurationItem id c path.
Proof.
  induction names as [|n names IH]; intros p st q st' c Hne Hp E; [done|].
  cbn in E. unfold bind in E.
  destruct (getattr p n st) as [[p1|e] st1] eqn:E1; [|discriminate].
  destruct (getattr_config _ _ _ _ _ E1) as [Hd Hq].
  destruct (Hq c Hp) as (id1 & path1 & ->).
  destruct names as [|n' names].
  - cbn in E. inversion E; subst. eauto.
  - destruct (IH (PConfigurationItem id1 c path1) st1 q st' c) as [Hd' Hq']; eauto.
    split; [congruence|exact Hq'].
Qed.

Lemma item_get_guard (c : configuration) (id : positive) (path : list string)
    (st : state) :
  (∀ v, get fn_sem (PConfiguration c) st = (Ok v, st) →
        get fn_sem (PConfigurationItem id c path) st
        = if py_is v (fallback c) then (Ok (fallback c), st)
          else get_loop path v st) ∧
  (∀ e, get fn_sem (PConfiguration c) st = (Err e, st) →
        get fn_sem (PConfigurationItem id c path) st = (Err e, st)).
Proof.
  cbn [get]. unfold ConfigurationItem_get, bind. split.
  - intros v E. rewrite E.
    destruct (py_is v (fallback c)) eqn:Hi.
    + rewrite (py_is_sentinel_r _ _ Hi (Configuration_get_real _ _ _ _ E)).
      reflexivity.
    + by rewrite andb_false_r.
  - intros e E. by rewrite E.
Qed.

Lemma fallback_whole_tree (c : configuration) (st : state) :
  data st (config_id c) = VSentinel →
  is_sentinel (fallback c) = false →
  get fn_sem (PConfiguration c) st = (Ok (fallback c), st) ∧
  (∀ id path,
     get fn_sem (PConfigurationItem id c path) st = (Ok (fallback c), st)) ∧
  (∀ names q st', names ≠ [] →
     getattrs (PConfiguration c) names st = (Ok q, st') →
     get fn_sem q st' = (Ok (fallback c), st')).
Proof.
  intros Hd Hf.
  assert (G : ∀ st1, datas st1 = datas st →
                     Configuration_get c st1 = (Ok (fallback c), st1)).
  { intros st1 E. unfold Configuration_get, data. rewrite E.
    unfold data in Hd. rewrite Hd. cbn. by rewrite Hf. }
  assert (I : ∀ st1 id path, datas st1 = datas st →
     get fn_sem (PConfigurationItem id c path) st1 = (Ok (fallback c), st1)).
  { intros st1 id path E.
    destruct (item_get_guard c id path st1) as [H _].
    rewrite (H (fallback c) (G st1 E)).
    assert (py_is (fallback c) (fallback c) = true) as ->; [|reflexivity].
    destruct (fallback c); cbn; try done; by apply bool_decide_eq_true. }
  split; [by apply G|]. split; [intros; by apply I|].
  intros names q st' Hne E.
  destruct (getattrs_config names _ _ _ _ c Hne (or_introl eq_refl) E)
    as [Hd' (id & path & ->)].
  by apply I.
Qed.

(** One iteration of the loop of [set], on a dict cursor. *)
Lemma set_loop_step_descend i rest l d st :
  heap st !! l = Some d → is_sentinel (default VSentinel (d !! i)) = false →
  set_loop (i :: rest) (VDict l) st
  = set_loop rest (default VSentinel (d !! i)) st.
Proof.
  intros Hl Hs. cbn [set_loop]. unfold bind, dict_get, ret.
  rewrite Hl, Hs. reflexivity.
Qed.

Lemma set_loop_step_create i rest l d st :
  heap st !! l = Some d → is_sentinel (default VSentinel (d !! i)) = true →
  let l' := fresh (dom (heap st)) in
  set_loop (i :: rest) (VDict l) st
  = set_loop rest (VDict l')
      (set_heap (<[l := <[i := VDict l']> d]> (<[l' := ∅]> (heap st))) st).
Proof.
  intros Hl Hs l'. cbn [set_loop]. unfold bind, dict_get, ret, new_dict, setitem.
  rewrite Hl, Hs. cbn [heap set_heap]. fold l'.
  assert (l' ≠ l) as Hne.
  { intros <-. apply (is_fresh (dom (heap st))). apply elem_of_dom. eauto. }
  rewrite lookup_insert_ne by done. rewrite Hl. reflexivity.
Qed.

Lemma set_loop_step_present i rest l d next st :
  heap st !! l = Some d → d !! i = Some next → is_sentinel next = false →
  set_loop (i :: rest) (VDict l) st = set_loop rest next st.
Proof.
  intros Hl Hi Hs.
  rewrite (set_loop_step_descend i rest l d st Hl); rewrite Hi; done.
Qed.

Lemma set_loop_step_missing i rest l d st :
  heap st !! l = Some d → d !! i = None →
  let l' := fresh (dom (heap st)) in
  set_loop (i :: rest) (VDict l) st
  = set_loop rest (VDict l')
      (set_heap (<[l := <[i := VDict l']> d]> (<[l' := ∅]> (heap st))) st).
Proof.
  intros Hl Hi. apply set_loop_step_create; [done|]. by rewrite Hi.
Qed.

Lemma set_loop_stuck i rest c st :
  (∀ l, c = VDict l → heap st !! l = None) →
  ∃ e, set_loop (i :: rest) c st = (Err e, st).
Proof.
  intros H. cbn [set_loop]. unfold bind, dict_get.
  destruct c; eauto. rewrite (H l eq_refl). eauto.
Qed.

Lemma cursor_cases c st :
  (∃ l d, c = VDict l ∧ heap st !! l = Some d) ∨
  (∀ l, c = VDict l → heap st !! l = None).
Proof.
  destruct c; try (right; intros; discriminate).
  destruct (heap st !! l) eqn:Hl; [left; eauto|].
  right. intros l' Heq. inversion Heq; subst. done.
Qed.

Lemma fresh_loc_None (h : gmap positive (gmap string value)) :
  h !! fresh (dom h) = None.
Proof. apply not_elem_of_dom, is_fresh. Qed.

Lemma sentinel_free_extend h l d i l' :
  sentinel_free h → h !! l = Some d → h !! l' = None →
  sentinel_free (<[l := <[i := VDict l']> d]> (<[l' := ∅]> h)).
Proof.
  intros Hsf Hl Hl' l1 d1 k v H1 Hk.
  destruct (decide (l1 = l)) as [->|Hne].
  - rewrite lookup_insert_eq in H1. inversion H1; subst.
    destruct (decide (k = i)) as [->|Hki].
    + rewrite lookup_insert_eq in Hk. by inversion Hk.
    + rewrite lookup_insert_ne in Hk by done. eauto.
  - rewrite lookup_insert_ne in H1 by done.
    destruct (decide (l1 = l')) as [->|Hne'].
    + rewrite lookup_insert_eq in H1. inversion H1; subst.
      by rewrite lookup_empty in Hk.
    + rewrite lookup_insert_ne in H1 by done. eauto.
Qed.

(** The loop of [set] changes the dict heap only. *)
Lemma set_loop_fields segs : ∀ c st r st',
  set_loop segs c st = (r, st') → st' = set_heap (heap st') st.
Proof.
  induction segs as [|i segs IH]; intros c st r st' E.
  - cbn in E. inversion E; subst. by destruct st'.
  - destruct (cursor_cases c st) as [(l & d & -> & Hl)|Hn].
    + destruct (is_sentinel (default VSentinel (d !! i))) eqn:Hs.
      * rewrite (set_loop_step_create _ _ _ _ _ Hl Hs) in E.
        apply IH in E. exact E.
      * rewrite (set_loop_step_descend _ _ _ _ _ Hl Hs) in E. eauto.
    + destruct (set_loop_stuck i segs c st Hn) as [e He].
      rewrite He in E. inversion E; subst. by destruct st'.
Qed.

(** The loop of [set] in the words of the specification. *)
Lemma set_loop_descends segs : ∀ c st c' st',
  sentinel_free (heap st) →
  set_loop segs c st = (Ok c', st') →
  descends (heap st) c segs (heap st') c' ∧ sentinel_free (heap st').
Proof.
  induction segs as [|i segs IH]; intros c st c' st' Hsf E.
  - cbn in E. inversion E; subst. split; [constructor|done].
  - destruct (cursor_cases c st) as [(l & d & -> & Hl)|Hn].
    2:{ destruct (set_loop_stuck i segs c st Hn) as [e He]. congruence. }
    destruct (d !! i) as [next|] eqn:Hi.
    + rewrite (set_loop_step_present _ _ _ _ _ _ Hl Hi (Hsf _ _ _ _ Hl Hi)) in E.
      destruct (IH _ _ _ _ Hsf E) as [D Hsf'].
      split; [|done]. eapply descends_present; eauto.
    + rewrite (set_loop_step_missing _ _ _ _ _ Hl Hi) in E.
      pose proof (fresh_loc_None (heap st)) as Hf.
      apply IH in E; cbn.
      2:{ cbn. by apply sentinel_free_extend. }
      cbn in E. destruct E as [D Hsf']. split; [|done].
      eapply descends_missing; eauto. by apply not_elem_of_dom.
Qed.

(** Entries that exist are not overwritten by the loop of [set]. *)
Lemma set_loop_preserves segs : ∀ c st r st',
  sentinel_free (heap st) →
  set_loop segs c st = (r, st') →
  ∀ l d k v, heap st !! l = Some d → d !! k = Some v →
             ∃ d', heap st' !! l = Some d' ∧ d' !! k = Some v.
Proof.
  induction segs as [|i segs IH]; intros c st r st' Hsf E l1 d1 k v H1 Hk.
  - cbn in E. inversion E; subst. eauto.
  - destruct (cursor_cases c st) as [(l & d & -> & Hl)|Hn].
    2:{ destruct (set_loop_stuck i segs c st Hn) as [e He].
        rewrite He in E. inversion E; subst. eauto. }
    destruct (d !! i) as [next|] eqn:Hi.
    + rewrite (set_loop_step_present _ _ _ _ _ _ Hl Hi (Hsf _ _ _ _ Hl Hi)) in E.
      eapply IH; eauto.
    + rewrite (set_loop_step_missing _ _ _ _ _ Hl Hi) in E.
      pose proof (fresh_loc_None (heap st)) as Hf.
      match type of E with set_loop _ _ ?s = _ =>
        assert (Hsf2 : sentinel_free (heap s))
          by (cbn; by apply sentinel_free_extend)
      end.
      destruct (decide (l1 = l)) as [->|Hne].
      * assert (d1 = d) as -> by congruence.
        eapply (IH _ _ _ _ Hsf2 E l).
        -- cbn. apply lookup_insert_eq.
        -- rewrite lookup_insert_ne; [done|]. intros Heq. congruence.
      * eapply (IH _ _ _ _ Hsf2 E l1); [|done].
        cbn. rewrite lookup_insert_ne by done.
        rewrite lookup_insert_ne; [done|]. intros Heq. congruence.
Qed.

(** After the loop of [set], the path it descended reads back. *)
Lemma set_loop_walks segs : ∀ c st c' st',
  sentinel_free (heap st) →
  set_loop segs c st = (Ok c', st') →
  walks (heap st') c segs c'.
Proof.
  induction segs as [|i segs IH]; intros c st c' st' Hsf E.
  - cbn in E. inversion E; subst. constructor.
  - destruct (cursor_cases c st) as [(l & d & -> & Hl)|Hn].
    2:{ destruct (set_loop_stuck i segs c st Hn) as [e He]. congruence. }
    destruct (d !! i) as [next|] eqn:Hi.
    + rewrite (set_loop_step_present _ _ _ _ _ _ Hl Hi (Hsf _ _ _ _ Hl Hi)) in E.
      destruct (set_loop_preserves _ _ _ _ _ Hsf E _ _ _ _ Hl Hi) as (d' & Hl' & Hi').
      econstructor; eauto.
    + rewrite (set_loop_step_missing _ _ _ _ _ Hl Hi) in E.
      pose proof (fresh_loc_None (heap st)) as Hf.
      match type of E with set_loop _ _ ?s = _ =>
        assert (Hsf2 : sentinel_free (heap s))
          by (cbn; by apply sentinel_free_extend)
      end.
      destruct (set_loop_preserves _ _ _ _ _ Hsf2 E l (<[i := VDict (fresh (dom (heap st)))]> d)
                  i (VDict (fresh (dom (heap st)))))
        as (d' & Hl' & Hi').
      { cbn. apply lookup_insert_eq. }
      { apply lookup_insert_eq. }
      econstructor; eauto.
Qed.

(** The loop of [set] succeeds along a settable path and ends on a dict. *)
Lemma set_loop_new_dict segs : ∀ l st,
  heap st !! l = Some ∅ →
  ∃ l' st', set_loop segs (VDict l) st = (Ok (VDict l'), st') ∧
            heap st' !! l' = Some ∅.
Proof.
  induction segs as [|i segs IH]; intros l st Hl.
  - exists l, st. by split.
  - rewrite (set_loop_step_missing _ _ _ _ _ Hl (lookup_empty i)).
    apply IH. cbn.
    rewrite lookup_insert_ne; [apply lookup_insert_eq|].
    intros Heq. pose proof (fresh_loc_None (heap st)). congruence.
Qed.

Lemma set_loop_settable segs : ∀ c st,
  sentinel_free (heap st) → settable (heap st) c segs →
  ∃ l d st', set_loop segs c st = (Ok (VDict l), st') ∧ heap st' !! l = Some d.
Proof.
  induction segs as [|i segs IH]; intros c st Hsf S.
  - inversion S; subst. by exists l, d, st.
  - inversion S as [|l d i' next rest Hl Hi S'|l d i' rest Hl Hi]; subst.
    + rewrite (set_loop_step_present _ _ _ _ _ _ Hl Hi (Hsf _ _ _ _ Hl Hi)).
      by apply IH.
    + rewrite (set_loop_step_missing _ _ _ _ _ Hl Hi).
      edestruct (set_loop_new_dict segs (fresh (dom (heap st)))) as (l' & st' & E & Hl').
      2:{ rewrite E. by exists l', ∅, st'. }
      cbn. rewrite lookup_insert_ne; [apply lookup_insert_eq|].
      intros Heq. pose proof (fresh_loc_None (heap st)). congruence.
Qed.

(** When every segment is present, the loop of [set] changes nothing. *)
Lemma set_loop_all_present segs : ∀ c st c',
  sentinel_free (heap st) → walks (heap st) c segs c' →
  set_loop segs c st = (Ok c', st).
Proof.
  induction segs as [|i segs IH]; intros c st c' Hsf W.
  - inversion W; subst. reflexivity.
  - inversion W as [|l d k x rest r Hl Hi Hw]; subst.
    rewrite (set_loop_step_present _ _ _ _ _ _ Hl Hi (Hsf _ _ _ _ Hl Hi)).
    by apply IH.
Qed.

Lemma walks_det h c segs : ∀ r1 r2,
  walks h c segs r1 → walks h c segs r2 → r1 = r2.
Proof.
  intros r1 r2 W1. revert r2.
  induction W1 as [c|l d k v rest r Hl Hk W IH]; intros r2 W2.
  - by inversion W2.
  - inversion W2 as [|l' d' k' v' rest' r' Hl' Hk' W']; subst.
    apply IH. congruence.
Qed.

Lemma walks_app h c p1 p2 m r :
  walks h c p1 m → walks h m p2 r → walks h c (p1 ++ p2) r.
Proof.
  induction 1 as [c|l d k v rest r' Hl Hk W IH]; intros W2; cbn; [done|].
  econstructor; eauto.
Qed.

Lemma walks_split h p1 : ∀ c p2 r,
  walks h c (p1 ++ p2) r → ∃ m, walks h c p1 m ∧ walks h m p2 r.
Proof.
  induction p1 as [|i p1 IH]; intros c p2 r W; cbn in W.
  - exists c. split; [constructor|done].
  - inversion W as [|l d k v rest r' Hl Hk W']; subst.
    destruct (IH _ _ _ W') as (m & W1 & W2).
    exists m. split; [econstructor; eauto|done].
Qed.

(** A write at [(l, k)] keeps every walk that takes no step there. *)
Lemma walks_insert h l d k v segs : ∀ c r,
  h !! l = Some d →
  walks h c segs r →
  (∀ pre1 rest, segs = pre1 ++ k :: rest → ¬ walks h c pre1 (VDict l)) →
  walks (<[l := <[k := v]> d]> h) c segs r.
Proof.
  intros c r Hl W. induction W as [c|l1 d1 k1 x rest r Hl1 Hk1 W IH]; intros Hav.
  - constructor.
  - assert (¬ (l1 = l ∧ k1 = k)) as Hne.
    { intros [-> ->]. apply (Hav [] rest eq_refl). constructor. }
    assert (∃ d', <[l := <[k := v]> d]> h !! l1 = Some d' ∧ d' !! k1 = Some x)
      as (d' & Hl' & Hk').
    { destruct (decide (l1 = l)) as [->|Hl1l].
      - rewrite lookup_insert_eq. eexists. split; [done|].
        assert (d1 = d) as -> by congruence.
        rewrite lookup_insert_ne; [done|]. intros ->. by apply Hne.
      - rewrite lookup_insert_ne by done. eauto. }
    econstructor; eauto. apply IH.
    intros pre1 rest' -> W1. apply (Hav (k1 :: pre1) rest' eq_refl).
    econstructor; eauto.
Qed.

(** Either the loop of [set] found every segment and changed nothing, or
    it ends on a dict it has just created. *)
Lemma set_loop_dichotomy segs : ∀ c st l st',
  sentinel_free (heap st) →
  set_loop segs c st = (Ok (VDict l), st') →
  (st' = st ∧ walks (heap st) c segs (VDict l)) ∨ heap st' !! l = Some ∅.
Proof.
  induction segs as [|i segs IH]; intros c st l st' Hsf E.
  - cbn in E. inversion E; subst. left. split; [done|constructor].
  - destruct (cursor_cases c st) as [(l0 & d & -> & Hl)|Hn].
    2:{ destruct (set_loop_stuck i segs c st Hn) as [e He]. congruence. }
    destruct (d !! i) as [next|] eqn:Hi.
    + rewrite (set_loop_step_present _ _ _ _ _ _ Hl Hi (Hsf _ _ _ _ Hl Hi)) in E.
      destruct (IH _ _ _ _ Hsf E) as [[-> W]|He]; [left|by right].
      split; [done|]. econstructor; eauto.
    + rewrite (set_loop_step_missing _ _ _ _ _ Hl Hi) in E.
      right.
      match type of E with set_loop _ (VDict ?l1) ?s = _ =>
        destruct (set_loop_new_dict segs l1 s) as (l' & st2 & E2 & He)
      end.
      { cbn. rewrite lookup_insert_ne; [apply lookup_insert_eq|].
        intros Heq. pose proof (fresh_loc_None (heap st)). congruence. }
      rewrite E2 in E. inversion E; subst. exact He.
Qed.

(** [set] on a path provider, for a value that is not the sentinel, over
    an initialized configuration whose data is the dict at [l0]. *)
Lemma item_set_unfold (c : configuration) (id : positive) (pre : list string)
    (k : string) (v : value) (st : state) (l0 : positive) :
  is_sentinel v = false →
  data st (config_id c) = VDict l0 →
  set (PConfigurationItem id c (pre ++ [k])) v st
  = match set_loop pre (VDict l0) st with
    | (Ok cur, st1) => setitem cur k v st1
    | (Err e, st1) => (Err e, st1)
    end.
Proof.
  intros Hv Hd. cbn [set]. unfold ConfigurationItem_set. rewrite Hv.
  unfold bind at 1. unfold Configuration_get. rewrite Hd. cbn [is_sentinel].
  rewrite removelast_last, last_snoc. unfold bind.
  destruct (set_loop pre (VDict l0) st) as [[cur|e] st1]; reflexivity.
Qed.

Lemma setitem_ok cur k v st st' :
  setitem cur k v st = (Ok tt, st') →
  ∃ l d, cur = VDict l ∧ heap st !! l = Some d ∧
         st' = set_heap (<[l := <[k := v]> d]> (heap st)) st.
Proof.
  unfold setitem. destruct cur; try discriminate.
  destruct (heap st !! l) as [d|] eqn:Hl; [|discriminate].
  intros E. inversion E; subst. eauto.
Qed.

Lemma path_set_descends (c : configuration) (id : positive) (pre : list string)
    (k : string) (v : value) (st : state) (l0 : positive) :
  is_sentinel v = false →
  data st (config_id c) = VDict l0 →
  sentinel_free (heap st) →
  (∀ st', set (PConfigurationItem id c (pre ++ [k])) v st = (Ok tt, st') →
     ∃ h1 l d,
       descends (heap st) (VDict l0) pre h1 (VDict l) ∧ h1 !! l = Some d ∧
       st' = set_heap (<[l := <[k := v]> d]> h1) st) ∧
  (settable (heap st) (VDict l0) pre →
     ∃ st', set (PConfigurationItem id c (pre ++ [k])) v st = (Ok tt, st')) ∧
  (∀ l d, walks (heap st) (VDict l0) pre (VDict l) → heap st !! l = Some d →
     set (PConfigurationItem id c (pre ++ [k])) v st
     = (Ok tt, set_heap (<[l := <[k := v]> d]> (heap st)) st)).
Proof.
  intros Hv Hd Hsf. rewrite (item_set_unfold c id pre k v st l0 Hv Hd).
  split; [|split].
  - intros st' E.
    destruct (set_loop pre (VDict l0) st) as [[cur|e] st1] eqn:E1; [|discriminate].
    destruct (setitem_ok _ _ _ _ _ E) as (l & d & -> & Hl & ->).
    destruct (set_loop_descends _ _ _ _ _ Hsf E1) as [D _].
    exists (heap st1), l, d. split; [done|]. split; [done|].
    rewrite (set_loop_fields _ _ _ _ _ E1). reflexivity.
  - intros S.
    destruct (set_loop_settable _ _ _ Hsf S) as (l & d & st1 & E1 & Hl).
    rewrite E1. unfold setitem. rewrite Hl. eauto.
  - intros l d W Hl.
    rewrite (set_loop_all_present _ _ _ _ Hsf W).
    unfold setitem. by rewrite Hl.
Qed.

(** After a successful [set] on a path provider, [get] on it returns the
    value. *)
Lemma path_set_get (c : configuration) (id : positive) (pre : list string)
    (k : string) (v : value) (st st' : state) (l0 : positive) :
  is_sentinel v = false →
  data st (config_id c) = VDict l0 →
  py_is (VDict l0) (fallback c) = false →
  sentinel_free (heap st) →
  no_revisit (heap st) (VDict l0) pre k →
  set (PConfigurationItem id c (pre ++ [k])) v st = (Ok tt, st') →
  get fn_sem (PConfigurationItem id c (pre ++ [k])) st' = (Ok v, st').
Proof.
  intros Hv Hd Hf Hsf Hnr E.
  rewrite (item_set_unfold c id pre k v st l0 Hv Hd) in E.
  destruct (set_loop pre (VDict l0) st) as [[cur|e] st1] eqn:E1; [|discriminate].
  destruct (setitem_ok _ _ _ _ _ E) as (l & d & -> & Hl & ->).
  pose proof (set_loop_walks _ _ _ _ _ Hsf E1) as W.
  assert (Hd' : data (set_heap (<[l := <[k := v]> d]> (heap st1)) st1) (config_id c)
                = VDict l0).
  { rewrite (set_loop_fields _ _ _ _ _ E1). exact Hd. }
  destruct (path_get_walks c id (pre ++ [k]) _ l0 Hd' Hf) as [Hget _].
  apply Hget. cbn [heap set_heap].
  eapply walks_app.
  - apply walks_insert; [done|done|].
    intros pre1 rest -> W1.
    destruct (walks_split _ _ _ _ _ W) as (m & W1' & W2).
    pose proof (walks_det _ _ _ _ _ W1 W1') as <-.
    destruct (set_loop_dichotomy _ _ _ _ _ Hsf E1) as [[-> W0]|He].
    + eapply Hnr; eauto.
    + inversion W2 as [|l' d' k' x rest' r' Hl' Hk' W']; subst.
      rewrite He in Hl'. inversion Hl'; subst. by rewrite lookup_empty in Hk'.
  - econstructor; [apply lookup_insert_eq|apply lookup_insert_eq|constructor].
Qed.

Lemma no_revisit_fresh_key h root pre k : k ∉ pre → no_revisit h root pre k.
Proof.
  intros Hk pre1 rest l -> _. exfalso. apply Hk.
  apply elem_of_app. right. left.
Qed.

Lemma no_revisit_acyclic h root pre k : acyclic h → no_revisit h root pre k.
Proof. intros Ha pre1 rest l _ _. by apply Ha. Qed.

Lemma get_frame_refl st : get_frame st st.
Proof. repeat split. exists []. by rewrite app_nil_r. Qed.

Lemma get_frame_trans st1 st2 st3 :
  get_frame st1 st2 → get_frame st2 st3 → get_frame st1 st3.
Proof.
  intros (Ho & Hd & Hh & l & Hl) (Ho' & Hd' & Hh' & l' & Hl').
  repeat split; try congruence.
  exists (l ++ l'). rewrite Hl', Hl. by rewrite app_assoc.
Qed.

Lemma inject_args_frame (g : provider → M value) args :
  Forall (on_arg (fun q => ∀ st r st', g q st = (r, st') → get_frame st st')) args →
  ∀ st r st', _inject_args g args st = (r, st') → get_frame st st'.
Proof.
  induction 1 as [|a args Ha _ IH]; intros st r st' E.
  - inversion E; subst. apply get_frame_refl.
  - cbn in E. unfold bind at 1 in E.
    destruct (match a with VProv p => g p | _ => ret a end st) as [[v|e] st1] eqn:E1.
    + assert (get_frame st st1) as F1.
      { destruct a; try (inversion E1; subst; apply get_frame_refl).
        eapply Ha, E1. }
      unfold bind at 1 in E.
      destruct (_inject_args g args st1) as [[vs|e] st2] eqn:E2;
        inversion E; subst; eapply get_frame_trans; eauto.
    + inversion E; subst.
      destruct a; try discriminate. eapply Ha, E1.
Qed.

Lemma inject_kwargs_frame (g : provider → M value) kwargs :
  Forall (fun kv => on_arg (fun q => ∀ st r st', g q st = (r, st') → get_frame st st')
                      (snd kv)) kwargs →
  ∀ st r st', _inject_kwargs g kwargs st = (r, st') → get_frame st st'.
Proof.
  induction 1 as [|[k a] kwargs Ha _ IH]; intros st r st' E.
  - inversion E; subst. apply get_frame_refl.
  - cbn in E. unfold bind at 1 in E.
    destruct (match a with VProv p => g p | _ => ret a end st) as [[v|e] st1] eqn:E1.
    + assert (get_frame st st1) as F1.
      { destruct a; try (inversion E1; subst; apply get_frame_refl).
        eapply Ha, E1. }
      unfold bind at 1 in E.
      destruct (_inject_kwargs g kwargs st1) as [[vs|e] st2] eqn:E2;
        inversion E; subst; eapply get_frame_trans; eauto.
    + inversion E; subst.
      destruct a; try discriminate. eapply Ha, E1.
Qed.

Lemma invoke_frame s f a k st r st' :
  invoke fn_sem s f a k st = (r, st') → get_frame st st'.
Proof.
  unfold invoke. intros E; inversion E; subst.
  repeat split. by exists [Call s f a k].
Qed.

Lemma get_get_frame (p : provider) :
  ∀ st r st', get fn_sem p st = (r, st') → get_frame st st'.
Proof.
  induction p as [id|id v|id f args kwargs IHa IHk|id f args kwargs IHa IHk|c|id c path]
    using provider_nested_ind; intros st r st' E; cbn in E.
  - unfold Provider_get, Provider_provide, raise in E.
    destruct (negb _); inversion E; subst; apply get_frame_refl.
  - unfold Provider_get, Static_provide, ret in E.
    destruct (negb _); inversion E; subst; apply get_frame_refl.
  - unfold Provider_get in E.
    destruct (negb _); [inversion E; subst; apply get_frame_refl|].
    unfold Callable_provide, bind in E.
    destruct (_inject_args _ args st) as [[a|e] st1] eqn:E1.
    2:{ inversion E; subst. eapply inject_args_frame; eauto. }
    destruct (_inject_kwargs _ kwargs st1) as [[k|e] st2] eqn:E2.
    2:{ inversion E; subst. eapply get_frame_trans;
        [eapply inject_args_frame|eapply inject_kwargs_frame]; eauto. }
    eapply get_frame_trans; [eapply inject_args_frame; eauto|].
    eapply get_frame_trans; [eapply inject_kwargs_frame; eauto|].
    eapply invoke_frame; eauto.
  - unfold Provider_get in E.
    destruct (negb _); [inversion E; subst; apply get_frame_refl|].
    unfold MemoizedCallable_provide in E.
    destruct (negb _); [inversion E; subst; apply get_frame_refl|].
    unfold bind in E.
    destruct (_inject_args _ args st) as [[a|e] st1] eqn:E1.
    2:{ inversion E; subst. eapply inject_args_frame; eauto. }
    destruct (_inject_kwargs _ kwargs st1) as [[k|e] st2] eqn:E2.
    2:{ inversion E; subst. eapply get_frame_trans;
        [eapply inject_args_frame|eapply inject_kwargs_frame]; eauto. }
    eapply get_frame_trans; [eapply inject_args_frame; eauto|].
    eapply get_frame_trans; [eapply inject_kwargs_frame; eauto|].
    destruct (invoke fn_sem (ByProvider id) f a k st2) as [[v|e] st3] eqn:E3.
    + eapply get_frame_trans; [eapply invoke_frame; eauto|].
      unfold modify, ret in E. inversion E; subst.
      repeat split. exists []. cbn. by rewrite app_nil_r.
    + inversion E; subst. eapply invoke_frame; eauto.
  - unfold Configuration_get in E.
    repeat (destruct (is_sentinel _)); inversion E; subst; apply get_frame_refl.
  - apply ConfigurationItem_get_state in E. subst. apply get_frame_refl.
Qed.

(** *** Argument resolution *)

Lemma inject_args_resolved args : ∀ st vs st',
  _inject_args (get fn_sem) args st = (Ok vs, st')
  ↔ resolved_args fn_sem args st vs st'.
Proof.
  induction args as [|a args IH]; intros st vs st'.
  - cbn. split.
    + intros E. inversion E; subst. constructor.
    + intros R. inversion R; subst. reflexivity.
  - cbn [_inject_args]. unfold bind. split.
    + intros E.
      destruct (match a with VProv p => get fn_sem p | _ => ret a end st)
        as [[v|e] st1] eqn:E1; [|discriminate].
      destruct (_inject_args (get fn_sem) args st1) as [[vs1|e] st2] eqn:E2;
        [|discriminate].
      inversion E; subst. apply IH in E2.
      destruct a; try (inversion E1; subst; by constructor).
      econstructor; eauto.
    + intros R. inversion R as [|a' rest s vs1 s' Hp R'|q rest s v s1 vs1 s' Hg R']; subst.
      * apply IH in R'.
        assert (match a with VProv p => get fn_sem p | _ => ret a end st = (Ok a, st))
          as -> by (by destruct a).
        by rewrite R'.
      * apply IH in R'. rewrite Hg. by rewrite R'.
Qed.

Lemma inject_kwargs_resolved kwargs : ∀ st vs st',
  _inject_kwargs (get fn_sem) kwargs st = (Ok vs, st')
  ↔ resolved_kwargs fn_sem kwargs st vs st'.
Proof.
  induction kwargs as [|[k a] kwargs IH]; intros st vs st'.
  - cbn. split.
    + intros E. inversion E; subst. constructor.
    + intros R. inversion R; subst. reflexivity.
  - cbn [_inject_kwargs]. unfold bind. split.
    + intros E.
      destruct (match a with VProv p => get fn_sem p | _ => ret a end st)
        as [[v|e] st1] eqn:E1; [|discriminate].
      destruct (_inject_kwargs (get fn_sem) kwargs st1) as [[vs1|e] st2] eqn:E2;
        [|discriminate].
      inversion E; subst. apply IH in E2.
      destruct a; try (inversion E1; subst; by constructor).
      econstructor; eauto.
    + intros R.
      inversion R as [|k' a' rest s vs1 s' Hp R'|k' q rest s v s1 vs1 s' Hg R']; subst.
      * apply IH in R'.
        assert (match a with VProv p => get fn_sem p | _ => ret a end st = (Ok a, st))
          as -> by (by destruct a).
        by rewrite R'.
      * apply IH in R'. rewrite Hg. by rewrite R'.
Qed.

Lemma inject_args_plain (g : provider → M value) args st :
  Forall (fun a => is_provider a = false) args →
  _inject_args g args st = (Ok args, st).
Proof.
  induction 1 as [|a args Ha _ IH]; [done|].
  cbn [_inject_args]. unfold bind.
  assert (match a with VProv p => g p | _ => ret a end st = (Ok a, st))
    as -> by (by destruct a).
  by rewrite IH.
Qed.

Lemma inject_kwargs_plain (g : provider → M value) kwargs st :
  Forall (fun kv => is_provider (snd kv) = false) kwargs →
  _inject_kwargs g kwargs st = (Ok kwargs, st).
Proof.
  induction 1 as [|[k a] kwargs Ha _ IH]; [done|].
  cbn [_inject_kwargs]. unfold bind. cbn in Ha.
  assert (match a with VProv p => g p | _ => ret a end st = (Ok a, st))
    as -> by (by destruct a).
  by rewrite IH.
Qed.

(** *** Counting the calls a provider makes *)

Lemma calls_by_app id l1 l2 :
  calls_by id (l1 ++ l2) = calls_by id l1 + calls_by id l2.
Proof. unfold calls_by. by rewrite List.filter_app, length_app. Qed.

Lemma calls_by_invoke id s f a k st :
  calls_by id (log (snd (invoke fn_sem s f a k st)))
  = calls_by id (log st)
    + match s with
      | ByProvider i => if bool_decide (i = id) then 1 else 0
      | ByWrapper => 0
      end.
Proof.
  unfold invoke. cbn [snd log add_call]. rewrite calls_by_app. f_equal.
  unfold calls_by. cbn.
  destruct s as [i|]; [|done]. by destruct (bool_decide (i = id)).
Qed.

Lemma calls_by_invoke_self id f a k st :
  calls_by id (log (snd (invoke fn_sem (ByProvider id) f a k st)))
  = S (calls_by id (log st)).
Proof.
  rewrite calls_by_invoke. rewrite bool_decide_eq_true_2 by done. lia.
Qed.

Lemma same_calls_refl id st : same_calls id st st.
Proof. by split. Qed.

Lemma same_calls_trans id st1 st2 st3 :
  same_calls id st1 st2 → same_calls id st2 st3 → same_calls id st1 st3.
Proof. intros [H1 H2] [H3 H4]. split; congruence. Qed.

Lemma inject_args_quiet id args :
  Forall (on_arg (quiet fn_sem id)) args →
  ∀ st r st', _inject_args (get fn_sem) args st = (r, st') → same_calls id st st'.
Proof.
  induction 1 as [|a args Ha _ IH]; intros st r st' E.
  - inversion E; subst. apply same_calls_refl.
  - cbn [_inject_args] in E. unfold bind at 1 in E.
    destruct (match a with VProv p => get fn_sem p | _ => ret a end st)
      as [[v|e] st1] eqn:E1.
    + assert (same_calls id st st1) as S1.
      { destruct a; try (inversion E1; subst; apply same_calls_refl).
        eapply Ha, E1. }
      unfold bind at 1 in E.
      destruct (_inject_args (get fn_sem) args st1) as [[vs|e] st2] eqn:E2;
        inversion E; subst; eapply same_calls_trans; eauto.
    + inversion E; subst. destruct a; try discriminate. eapply Ha, E1.
Qed.

Lemma inject_kwargs_quiet id kwargs :
  Forall (fun kv => on_arg (quiet fn_sem id) (snd kv)) kwargs →
  ∀ st r st', _inject_kwargs (get fn_sem) kwargs st = (r, st') →
              same_calls id st st'.
Proof.
  induction 1 as [|[k a] kwargs Ha _ IH]; intros st r st' E.
  - inversion E; subst. apply same_calls_refl.
  - cbn [_inject_kwargs] in E. unfold bind at 1 in E. cbn in Ha.
    destruct (match a with VProv p => get fn_sem p | _ => ret a end st)
      as [[v|e] st1] eqn:E1.
    + assert (same_calls id st st1) as S1.
      { destruct a; try (inversion E1; subst; apply same_calls_refl).
        eapply Ha, E1. }
      unfold bind at 1 in E.
      destruct (_inject_kwargs (get fn_sem) kwargs st1) as [[vs|e] st2] eqn:E2;
        inversion E; subst; eapply same_calls_trans; eauto.
    + inversion E; subst. destruct a; try discriminate. eapply Ha, E1.
Qed.

Lemma nested_args_quiet id (P : provider → Prop) args :
  Forall (on_arg (fun q => id ∉ provider_id q :: nested_ids q → P q)) args →
  id ∉ flat_map (fun a => match a with
                          | VProv q => provider_id q :: nested_ids q
                          | _ => []
                          end) args →
  Forall (on_arg P) args.
Proof.
  induction 1 as [|a args Ha _ IH]; intros Hn; constructor.
  - destruct a; cbn; try done. apply Ha. intros Hin. apply Hn.
    cbn [flat_map]. apply elem_of_app. by left.
  - apply IH. intros Hin. apply Hn. cbn [flat_map]. apply elem_of_app. by right.
Qed.

Lemma nested_kwargs_quiet id (P : provider → Prop) (kwargs : list (string * value)) :
  Forall (fun kv => on_arg (fun q => id ∉ provider_id q :: nested_ids q → P q)
                      (snd kv)) kwargs →
  id ∉ flat_map (fun kv => match snd kv with
                           | VProv q => provider_id q :: nested_ids q
                           | _ => []
                           end) kwargs →
  Forall (fun kv => on_arg P (snd kv)) kwargs.
Proof.
  induction 1 as [|[k a] kwargs Ha _ IH]; intros Hn; constructor.
  - cbn in *. destruct a; cbn; try done. apply Ha. intros Hin. apply Hn.
    apply elem_of_app. by left.
  - apply IH. intros Hin. apply Hn. cbn [flat_map]. apply elem_of_app. by right.
Qed.

(** Resolving a provider that neither is nor contains the object [id]
    adds no call made by [id]. *)
Lemma invoke_other_quiet id i f a k st :
  i ≠ id → same_calls id st (snd (invoke fn_sem (ByProvider i) f a k st)).
Proof.
  intros Hi. split; [|reflexivity].
  rewrite calls_by_invoke. rewrite bool_decide_eq_false_2 by done. lia.
Qed.

Lemma get_quiet id (q : provider) :
  id ∉ provider_id q :: nested_ids q → quiet fn_sem id q.
Proof.
  induction q as [i|i v|i f args kwargs IHa IHk|i f args kwargs IHa IHk|c|i c path]
    using provider_nested_ind; intros Hn st r st' E; cbn [get] in E.
  - unfold Provider_get, Provider_provide, raise in E.
    destruct (negb _); inversion E; subst; apply same_calls_refl.
  - unfold Provider_get, Static_provide, ret in E.
    destruct (negb _); inversion E; subst; apply same_calls_refl.
  - cbn [provider_id nested_ids] in Hn.
    apply not_elem_of_cons in Hn as [Hi Hn].
    apply not_elem_of_app in Hn as [Hna Hnk].
    pose proof (nested_args_quiet _ _ _ IHa Hna) as Qa.
    pose proof (nested_kwargs_quiet _ _ _ IHk Hnk) as Qk.
    unfold Provider_get in E.
    destruct (negb _); [inversion E; subst; apply same_calls_refl|].
    unfold Callable_provide, bind in E.
    destruct (_inject_args _ args st) as [[a|e] st1] eqn:E1.
    2:{ inversion E; subst. eapply inject_args_quiet; eauto. }
    eapply same_calls_trans; [eapply inject_args_quiet; eauto|].
    destruct (_inject_kwargs _ kwargs st1) as [[k|e] st2] eqn:E2.
    2:{ inversion E; subst. eapply inject_kwargs_quiet; eauto. }
    eapply same_calls_trans; [eapply inject_kwargs_quiet; eauto|].
    pose proof (invoke_other_quiet id i f a k st2 (not_eq_sym Hi)) as Hc.
    by rewrite E in Hc.
  - cbn [provider_id nested_ids] in Hn.
    apply not_elem_of_cons in Hn as [Hi Hn].
    apply not_elem_of_app in Hn as [Hna Hnk].
    pose proof (nested_args_quiet _ _ _ IHa Hna) as Qa.
    pose proof (nested_kwargs_quiet _ _ _ IHk Hnk) as Qk.
    unfold Provider_get in E.
    destruct (negb _); [inversion E; subst; apply same_calls_refl|].
    unfold MemoizedCallable_provide in E.
    destruct (negb _); [inversion E; subst; apply same_calls_refl|].
    unfold bind in E.
    destruct (_inject_args _ args st) as [[a|e] st1] eqn:E1.
    2:{ inversion E; subst. eapply inject_args_quiet; eauto. }
    eapply same_calls_trans; [eapply inject_args_quiet; eauto|].
    destruct (_inject_kwargs _ kwargs st1) as [[k|e] st2] eqn:E2.
    2:{ inversion E; subst. eapply inject_kwargs_quiet; eauto. }
    eapply same_calls_trans; [eapply inject_kwargs_quiet; eauto|].
    pose proof (invoke_other_quiet id i f a k st2 (not_eq_sym Hi)) as Hc.
    destruct (invoke fn_sem (ByProvider i) f a k st2) as [[v|e] st3] eqn:E3;
      cbn [snd] in Hc.
    + unfold modify, ret in E. inversion E; subst.
      eapply same_calls_trans; [exact Hc|].
      split; [reflexivity|]. unfold cache. cbn.
      by rewrite lookup_insert_ne.
    + by inversion E; subst.
  - apply Configuration_get_state in E. subst. apply same_calls_refl.
  - apply ConfigurationItem_get_state in E. subst. apply same_calls_refl.
Qed.

(** *** [set] and [reset] on the override layer *)

Lemma ConfigurationItem_set_fields c path v st r st' :
  ConfigurationItem_set c path v st = (r, st') → st' = set_heap (heap st') st.
Proof.
  unfold ConfigurationItem_set. destruct (is_sentinel v).
  { intros E. inversion E; subst. by destruct st'. }
  unfold bind at 1.
  destruct (Configuration_get c st) as [[cur|e] st1] eqn:E1;
    apply Configuration_get_state in E1; subst st1.
  2:{ intros E. inversion E; subst. by destruct st'. }
  unfold bind at 1.
  destruct (set_loop (removelast path) cur st) as [[cur'|e] st1] eqn:E2.
  2:{ intros E. inversion E; subst. eapply set_loop_fields; eauto. }
  pose proof (set_loop_fields _ _ _ _ _ E2) as F.
  destruct (last path) as [k|].
  - unfold setitem. intros E.
    destruct cur'; try (inversion E; subst; exact F).
    destruct (heap st1 !! l); inversion E; subst; [|exact F].
    cbn. rewrite F. reflexivity.
  - unfold raise. intros E. inversion E; subst. exact F.
Qed.

(** A [set] or [reset] on another provider object leaves the cache, the log
    and the override of the object [id] as they are. *)
Lemma set_other id q v st :
  provider_id q ≠ id →
  override (snd (set q v st)) id = override st id ∧
  caches (snd (set q v st)) = caches st ∧
  log (snd (set q v st)) = log st.
Proof.
  intros Hne. destruct q as [i|i x|i f a k|i f a k|[i fb]|i c path]; cbn in *.
  1-4: unfold override; cbn; by rewrite lookup_insert_ne.
  - unfold Configuration_set. by destruct (is_sentinel v).
  - destruct (ConfigurationItem_set c path v st) as [r st'] eqn:E.
    apply ConfigurationItem_set_fields in E. rewrite E. done.
Qed.

Lemma reset_any id q st :
  (provider_id q ≠ id ∨ override st id = VSentinel) →
  override (snd (reset q st)) id = override st id ∧
  caches (snd (reset q st)) = caches st ∧
  log (snd (reset q st)) = log st.
Proof.
  intros Hne. destruct q as [i|i x|i f a k|i f a k|[i fb]|i c path]; cbn in *.
  1-4: split; [|done]; unfold override in *; cbn;
       (destruct (decide (i = id)) as [->|Hi];
        [rewrite lookup_insert_eq; destruct Hne as [Hne|Hne]; [done|by rewrite Hne]
        |by rewrite lookup_insert_ne]).
  all: done.
Qed.

(** *** Memoized callables *)

Lemma memoized_get_cached id f args kwargs st :
  override st id = VSentinel → is_sentinel (cache st id) = false →
  get fn_sem (PMemoizedCallable id f args kwargs) st = (Ok (cache st id), st).
Proof.
  intros Ho Hc. cbn [get]. unfold Provider_get. rewrite Ho. cbn.
  unfold MemoizedCallable_provide. by rewrite Hc.
Qed.

Lemma memoized_ops id f args kwargs ops : ∀ st,
  override st id = VSentinel → is_sentinel (cache st id) = false →
  Forall (other_than id) ops →
  Forall (fun r => r = Ok (cache st id))
    (fst (run_ops fn_sem (PMemoizedCallable id f args kwargs) ops st)) ∧
  log (snd (run_ops fn_sem (PMemoizedCallable id f args kwargs) ops st)) = log st ∧
  cache (snd (run_ops fn_sem (PMemoizedCallable id f args kwargs) ops st)) id
  = cache st id.
Proof.
  induction ops as [|o ops IH]; intros st Ho Hc Hops; [by repeat split|].
  apply Forall_cons in Hops as [Ho1 Hops].
  destruct o as [| |q v|q]; cbn [run_ops].
  - rewrite memoized_get_cached by done.
    destruct (IH st Ho Hc Hops) as (Hr & Hl & Hc').
    destruct (run_ops _ _ ops st) as [rs st2]. cbn in *.
    split; [by constructor|done].
  - pose proof (reset_any id (PMemoizedCallable id f args kwargs) st (or_intror Ho))
      as (Ho' & Hc' & Hl').
    set (st1 := snd (reset _ st)) in *.
    assert (cache st1 id = cache st id) as Hcc by (unfold cache; by rewrite Hc').
    destruct (IH st1) as (Hr & Hl & Hc2); [congruence|congruence|done|].
    rewrite Hcc in *. split; [done|]. split; congruence.
  - cbn in Ho1. pose proof (set_other id q v st Ho1) as (Ho' & Hc' & Hl').
    set (st1 := snd (set q v st)) in *.
    assert (cache st1 id = cache st id) as Hcc by (unfold cache; by rewrite Hc').
    destruct (IH st1) as (Hr & Hl & Hc2); [congruence|congruence|done|].
    rewrite Hcc in *. split; [done|]. split; congruence.
  - cbn in Ho1. pose proof (reset_any id q st (or_introl Ho1)) as (Ho' & Hc' & Hl').
    set (st1 := snd (reset q st)) in *.
    assert (cache st1 id = cache st id) as Hcc by (unfold cache; by rewrite Hc').
    destruct (IH st1) as (Hr & Hl & Hc2); [congruence|congruence|done|].
    rewrite Hcc in *. split; [done|]. split; congruence.
Qed.

(** The first [get] that returns a real value: the arguments are resolved,
    the function is called once, and its result is the cache. *)
Lemma memoized_first_get id f args kwargs st v st' :
  override st id = VSentinel → cache st id = VSentinel →
  get fn_sem (PMemoizedCallable id f args kwargs) st = (Ok v, st') →
  ∃ a st1 k st2,
    resolved_args fn_sem args st a st1 ∧
    resolved_kwargs fn_sem kwargs st1 k st2 ∧
    fn_sem f (log st2) a k = Ok v ∧
    st' = set_cache id v (add_call (Call (ByProvider id) f a k) st2) ∧
    override st' id = VSentinel ∧ cache st' id = v.
Proof.
  intros Ho Hc E.
  pose proof (get_get_frame _ _ _ _ E) as (Hov & _).
  cbn [get] in E. unfold Provider_get in E. rewrite Ho in E. cbn in E.
  unfold MemoizedCallable_provide in E. rewrite Hc in E. cbn in E.
  unfold bind in E.
  destruct (_inject_args _ args st) as [[a|e] st1] eqn:E1; [|discriminate].
  destruct (_inject_kwargs _ kwargs st1) as [[k|e] st2] eqn:E2; [|discriminate].
  unfold invoke in E.
  destruct (fn_sem f (log st2) a k) as [x|e] eqn:E3; [|discriminate].
  unfold modify, ret in E. inversion E; subst.
  exists a, st1, k, st2.
  split; [by apply inject_args_resolved|].
  split; [by apply inject_kwargs_resolved|].
  split; [done|]. split; [done|]. split.
  - unfold override. rewrite Hov. exact Ho.
  - unfold cache. cbn. by rewrite lookup_insert_eq.
Qed.

Lemma memoized_get_count id f args kwargs st :
  override st id = VSentinel → cache st id = VSentinel →
  id ∉ nested_ids (PMemoizedCallable id f args kwargs) →
  returns_real fn_sem f →
  let st' := snd (get fn_sem (PMemoizedCallable id f args kwargs) st) in
  override st' id = VSentinel ∧
  ((cache st' id = VSentinel ∧ calls_by id (log st') = calls_by id (log st)) ∨
   (is_sentinel (cache st' id) = false ∧
    calls_by id (log st') = S (calls_by id (log st)))).
Proof.
  intros Ho Hc Hn Hf.
  destruct (get fn_sem (PMemoizedCallable id f args kwargs) st) as [r st'] eqn:E.
  cbn [snd]. split.
  { pose proof (get_get_frame _ _ _ _ E) as (Hov & _).
    unfold override. rewrite Hov. exact Ho. }
  cbn [nested_ids] in Hn. apply not_elem_of_app in Hn as [Hna Hnk].
  assert (Qa : Forall (on_arg (quiet fn_sem id)) args).
  { eapply nested_args_quiet; [|exact Hna].
    clear. induction args as [|a args IH]; constructor; [|done].
    destruct a; cbn; try done. apply get_quiet. }
  assert (Qk : Forall (fun kv => on_arg (quiet fn_sem id) (snd kv)) kwargs).
  { eapply nested_kwargs_quiet; [|exact Hnk].
    clear. induction kwargs as [|[k a] kwargs IH]; constructor; [|done].
    destruct a; cbn; try done. apply get_quiet. }
  cbn [get] in E. unfold Provider_get in E. rewrite Ho in E. cbn in E.
  unfold MemoizedCallable_provide in E. rewrite Hc in E. cbn in E.
  unfold bind in E.
  destruct (_inject_args _ args st) as [[a|e] st1] eqn:E1.
  2:{ inversion E; subst. left.
      destruct (inject_args_quiet _ _ Qa _ _ _ E1) as [H1 H2].
      split; congruence. }
  destruct (inject_args_quiet _ _ Qa _ _ _ E1) as [H1 H2].
  destruct (_inject_kwargs _ kwargs st1) as [[k|e] st2] eqn:E2.
  2:{ inversion E; subst. left.
      destruct (inject_kwargs_quiet _ _ Qk _ _ _ E2) as [H3 H4].
      split; congruence. }
  destruct (inject_kwargs_quiet _ _ Qk _ _ _ E2) as [H3 H4].
  pose proof (calls_by_invoke_self id f a k st2) as Hcnt.
  unfold invoke in *. cbn [snd] in Hcnt.
  destruct (Hf (log st2) a k) as (v & Hv & Hreal). rewrite Hv in E.
  unfold modify, ret in E. inversion E; subst. right. split.
  - unfold cache. cbn. by rewrite lookup_insert_eq.
  - cbn [log set_cache]. rewrite Hcnt. lia.
Qed.

(** Across any operations, the object [id] calls its function at most
    once, provided the function returns real values. *)
Lemma memoized_at_most_once id f args kwargs ops : ∀ st,
  override st id = VSentinel →
  id ∉ nested_ids (PMemoizedCallable id f args kwargs) →
  returns_real fn_sem f →
  Forall (other_than id) ops →
  let st' := snd (run_ops fn_sem (PMemoizedCallable id f args kwargs) ops st) in
  (calls_by id (log st')
   ≤ calls_by id (log st) + (if is_sentinel (cache st id) then 1 else 0))%nat.
Proof.
  induction ops as [|o ops IH]; intros st Ho Hn Hf Hops; cbn zeta.
  { cbn. lia. }
  apply Forall_cons in Hops as [Ho1 Hops].
  destruct (is_sentinel (cache st id)) eqn:Hc.
  2:{ pose proof (memoized_ops id f args kwargs (o :: ops) st Ho Hc
                    (Forall_cons_2 _ _ _ Ho1 Hops)) as (_ & Hl & _).
      rewrite Hl. lia. }
  assert (cache st id = VSentinel) as Hc' by (by destruct (cache st id)).
  destruct o as [| |q v|q]; cbn [run_ops].
  - pose proof (memoized_get_count id f args kwargs st Ho Hc' Hn Hf) as (Ho2 & Hcase).
    cbn zeta in Hcase.
    destruct (get fn_sem _ st) as [r st1]. cbn [snd] in *.
    specialize (IH st1 Ho2 Hn Hf Hops). cbn zeta in IH.
    destruct (run_ops _ _ ops st1) as [rs st2]. cbn [snd] in *.
    destruct Hcase as [[Hs Hcnt]|[Hs Hcnt]]; rewrite Hs in IH; cbn in IH; lia.
  - pose proof (reset_any id (PMemoizedCallable id f args kwargs) st (or_intror Ho))
      as (Ho' & Hcc & Hl').
    set (st1 := snd (reset _ st)) in *.
    specialize (IH st1). cbn zeta in IH.
    assert (cache st1 id = cache st id) as Hce by (unfold cache; by rewrite Hcc).
    rewrite Hce, Hc, Hl' in IH. apply IH; [congruence|done..].
  - cbn in Ho1. pose proof (set_other id q v st Ho1) as (Ho' & Hcc & Hl').
    set (st1 := snd (set q v st)) in *.
    specialize (IH st1). cbn zeta in IH.
    assert (cache st1 id = cache st id) as Hce by (unfold cache; by rewrite Hcc).
    rewrite Hce, Hc, Hl' in IH. apply IH; [congruence|done..].
  - cbn in Ho1. pose proof (reset_any id q st (or_introl Ho1)) as (Ho' & Hcc & Hl').
    set (st1 := snd (reset q st)) in *.
    specialize (IH st1). cbn zeta in IH.
    assert (cache st1 id = cache st id) as Hce by (unfold cache; by rewrite Hcc).
    rewrite Hce, Hc, Hl' in IH. apply IH; [congruence|done..].
Qed.

(** *** Plain callables *)

Lemma callable_get_invokes id f args kwargs st a st1 k st2 :
  override st id = VSentinel →
  _inject_args (get fn_sem) args st = (Ok a, st1) →
  _inject_kwargs (get fn_sem) kwargs st1 = (Ok k, st2) →
  get fn_sem (PCallable id f args kwargs) st
  = (fn_sem f (log st2) a k, add_call (Call (ByProvider id) f a k) st2).
Proof.
  intros Ho E1 E2. cbn [get]. unfold Provider_get. rewrite Ho. cbn.
  unfold Callable_provide, bind. rewrite E1, E2. reflexivity.
Qed.

Lemma callable_get_count id f args kwargs st a st1 k st2 :
  override st id = VSentinel →
  id ∉ nested_ids (PCallable id f args kwargs) →
  _inject_args (get fn_sem) args st = (Ok a, st1) →
  _inject_kwargs (get fn_sem) kwargs st1 = (Ok k, st2) →
  calls_by id (log (snd (get fn_sem (PCallable id f args kwargs) st)))
  = S (calls_by id (log st)).
Proof.
  intros Ho Hn E1 E2.
  rewrite (callable_get_invokes id f args kwargs st a st1 k st2 Ho E1 E2).
  cbn [nested_ids] in Hn. apply not_elem_of_app in Hn as [Hna Hnk].
  assert (Qa : Forall (on_arg (quiet fn_sem id)) args).
  { eapply nested_args_quiet; [|exact Hna].
    clear. induction args as [|x args IH]; constructor; [|done].
    destruct x; cbn; try done. apply get_quiet. }
  assert (Qk : Forall (fun kv => on_arg (quiet fn_sem id) (snd kv)) kwargs).
  { eapply nested_kwargs_quiet; [|exact Hnk].
    clear. induction kwargs as [|[k' x] kwargs IH]; constructor; [|done].
    destruct x; cbn; try done. apply get_quiet. }
  destruct (inject_args_quiet _ _ Qa _ _ _ E1) as [H1 _].
  destruct (inject_kwargs_quiet _ _ Qk _ _ _ E2) as [H2 _].
  pose proof (calls_by_invoke_self id f a k st2) as Hcnt.
  unfold invoke in Hcnt. cbn [snd] in *. rewrite Hcnt. lia.
Qed.

Lemma callable_get_n id f args kwargs n : ∀ st,
  override st id = VSentinel →
  id ∉ nested_ids (PCallable id f args kwargs) →
  always_resolves fn_sem args kwargs →
  calls_by id (log (get_n fn_sem n (PCallable id f args kwargs) st))
  = calls_by id (log st) + n.
Proof.
  induction n as [|n IH]; intros st Ho Hn Hr; cbn [get_n]; [lia|].
  destruct (Hr st) as (a & st1 & k & st2 & E1 & E2).
  pose proof (callable_get_count id f args kwargs st a st1 k st2 Ho Hn E1 E2) as Hc.
  destruct (get fn_sem (PCallable id f args kwargs) st) as [r st'] eqn:E.
  cbn [snd] in *.
  rewrite IH; [lia| |done|done].
  pose proof (get_get_frame _ _ _ _ E) as (Hov & _).
  unfold override. rewrite Hov. exact Ho.
Qed.

(** *** The injection wrapper on [def f(x, y=Provide[p])] *)

Lemma string_eqb_xy : String.eqb "y" "x" = false ∧ String.eqb "x" "y" = false.
Proof. by split. Qed.

(** [y] is left out: the default, a provider, is resolved. *)
Lemma inject_omitted name p x v st st1 rn :
  plain x → get fn_sem p st = (Ok v, st1) →
  _inject fn_sem (f_xy name p) rn [x] [] st
  = (fn_sem name (log st1) [x; v] [], add_call (Call ByWrapper name [x; v] []) st1).
Proof.
  intros (Hn & Hs & Hp) E. unfold _inject, f_xy. cbn [fn_params fn_name].
  assert (List.filter (fun a => negb (is_sentinel a)) [x] = [x]) as F1
    by (cbn; by rewrite Hs).
  assert (List.filter (fun a => negb (is_none a)) [x] = [x]) as F2
    by (cbn; by rewrite Hn).
  destruct rn; cbn [negb]; rewrite ?F1, ?F2; cbn.
  all: unfold bind; destruct x; try discriminate; cbn; rewrite E; reflexivity.
Qed.

(** [y] is passed, positionally or by keyword: it reaches [f] as it is. *)
Lemma inject_explicit name p x y st rn :
  plain x → plain y →
  _inject fn_sem (f_xy name p) rn [x; y] [] st
  = (fn_sem name (log st) [x; y] [], add_call (Call ByWrapper name [x; y] []) st) ∧
  _inject fn_sem (f_xy name p) rn [x] [("y", y)] st
  = (fn_sem name (log st) [x; y] [], add_call (Call ByWrapper name [x; y] []) st).
Proof.
  intros (Hn & Hs & Hp) (Hn' & Hs' & Hp'). unfold _inject, f_xy.
  cbn [fn_params fn_name].
  destruct rn; cbn; rewrite ?Hn, ?Hs, ?Hn', ?Hs'; cbn.
  all: split; unfold bind; destruct x; try discriminate;
       destruct y; try discriminate; reflexivity.
Qed.

(** With [respect_none=True], [None] for [y] is dropped before binding and
    the provider is resolved; the sentinel is an argument like any other. *)
Lemma inject_respect_none name p x v st st1 :
  plain x → get fn_sem p st = (Ok v, st1) →
  _inject fn_sem (f_xy name p) true [x; VNone] [] st
  = (fn_sem name (log st1) [x; v] [], add_call (Call ByWrapper name [x; v] []) st1) ∧
  _inject fn_sem (f_xy name p) true [x] [("y", VNone)] st
  = (fn_sem name (log st1) [x; v] [], add_call (Call ByWrapper name [x; v] []) st1) ∧
  _inject fn_sem (f_xy name p) true [x; VSentinel] [] st
  = (fn_sem name (log st) [x; VSentinel] [],
     add_call (Call ByWrapper name [x; VSentinel] []) st) ∧
  _inject fn_sem (f_xy name p) true [x] [("y", VSentinel)] st
  = (fn_sem name (log st) [x; VSentinel] [],
     add_call (Call ByWrapper name [x; VSentinel] []) st).
Proof.
  intros (Hn & Hs & Hp) E. unfold _inject, f_xy. cbn [fn_params fn_name].
  cbn; rewrite ?Hn; cbn.
  repeat split; unfold bind; destruct x; try discriminate; cbn; rewrite ?E;
    reflexivity.
Qed.

(** With [respect_none=False], the sentinel for [y] is dropped before
    binding and the provider is resolved; [None] is an argument like any
    other. *)
Lemma inject_ignore_none name p x v st st1 :
  plain x → get fn_sem p st = (Ok v, st1) →
  _inject fn_sem (f_xy name p) false [x; VNone] [] st
  = (fn_sem name (log st) [x; VNone] [],
     add_call (Call ByWrapper name [x; VNone] []) st) ∧
  _inject fn_sem (f_xy name p) false [x] [("y", VNone)] st
  = (fn_sem name (log st) [x; VNone] [],
     add_call (Call ByWrapper name [x; VNone] []) st) ∧
  _inject fn_sem (f_xy name p) false [x; VSentinel] [] st
  = (fn_sem name (log st1) [x; v] [], add_call (Call ByWrapper name [x; v] []) st1) ∧
  _inject fn_sem (f_xy name p) false [x] [("y", VSentinel)] st
  = (fn_sem name (log st1) [x; v] [], add_call (Call ByWrapper name [x; v] []) st1).
Proof.
  intros (Hn & Hs & Hp) E. unfold _inject, f_xy. cbn [fn_params fn_name].
  cbn; rewrite ?Hs; cbn.
  repeat split; unfold bind; destruct x; try discriminate; cbn; rewrite ?E;
    reflexivity.
Qed.

(** *** [set] then [get] *)

Lemma set_get_inherited (p : provider) (v : value) (st : state) :
  inherits_set_get p = true → is_sentinel v = false →
  ∃ st', set p v st = (Ok tt, st') ∧ get fn_sem p st' = (Ok v, st').
Proof.
  intros Hp Hv.
  destruct p as [i|i x|i f a k|i f a k|c|i c path]; try discriminate;
    (eexists; split; [reflexivity|]); cbn [get]; unfold Provider_get, override;
    cbn; rewrite lookup_insert_eq; cbn; rewrite Hv; reflexivity.
Qed.

Lemma set_get_configuration (c : configuration) (v : value) (st : state) :
  is_sentinel v = false →
  ∃ st', set (PConfiguration c) v st = (Ok tt, st') ∧
         get fn_sem (PConfiguration c) st' = (Ok v, st').
Proof.
  intros Hv. cbn [set get]. unfold Configuration_set, Configuration_get, modify.
  rewrite Hv. eexists. split; [reflexivity|].
  unfold data. cbn. rewrite lookup_insert_eq. cbn. by rewrite Hv.
Qed.

Lemma set_get_path (c : configuration) (id : positive) (pre : list string)
    (k : string) (v : value) (st : state) (l0 : positive) :
  is_sentinel v = false →
  data st (config_id c) = VDict l0 →
  py_is (VDict l0) (fallback c) = false →
  sentinel_free (heap st) →
  settable (heap st) (VDict l0) pre →
  no_revisit (heap st) (VDict l0) pre k →
  ∃ st', set (PConfigurationItem id c (pre ++ [k])) v st = (Ok tt, st') ∧
         get fn_sem (PConfigurationItem id c (pre ++ [k])) st' = (Ok v, st').
Proof.
  intros Hv Hd Hf Hsf Hset Hnr.
  destruct (path_set_descends c id pre k v st l0 Hv Hd Hsf) as (_ & Hprog & _).
  destruct (Hprog Hset) as [st' E]. exists st'. split; [done|].
  eapply path_set_get; eauto.
Qed.

(** Checking [sentinel_free] on a concrete heap. *)
Lemma sentinel_free_check (h : gmap positive (gmap string value)) :
  map_Forall (fun _ d => map_Forall (fun _ v => is_sentinel v = false) d) h →
  sentinel_free h.
Proof. intros H l d k v Hl Hk. exact (H l d Hl k v Hk). Qed.

End Properties.

(** * The claims *)

(** C1: [Provider] has no [STATE_FIELDS], so the class statements of
    [Static], [Callable], [Configuration] and [_ConfigurationItem] raise
    [AttributeError] when evaluated; [MemoizedCallable] reads
    [Callable.STATE_FIELDS], which is found nowhere above a [Callable] class
    lacking an entry of its own; running the module up to any of the five
    classes, and importing any of them, raises [AttributeError]. *)
Theorem provider_classes_fail_on_STATE_FIELDS :
  ∃ g Provider,
    ClassDef.init_globals = Ok g ∧
    ClassDef.lookup_global g "Provider" = Ok Provider ∧
    ClassDef.class_getattr Provider "STATE_FIELDS"
      = Err (AttributeError "STATE_FIELDS") ∧
    Forall (fun s => ClassDef.exec_mstmt g s = Err (AttributeError "STATE_FIELDS"))
      [ClassDef.Static_stmt; ClassDef.Callable_stmt;
       ClassDef.Configuration_stmt; ClassDef.ConfigurationItem_stmt] ∧
    (∀ ns,
       ClassDef.exec_mstmt
         (("Callable",
           ClassDef.Class "Callable"
             (List.filter (fun kv => negb (String.eqb "STATE_FIELDS" (fst kv))) ns)
             Provider) :: g)
         ClassDef.MemoizedCallable_stmt
       = Err (AttributeError "STATE_FIELDS")) ∧
    Forall (fun name =>
              ClassDef.exec_module g (ClassDef.upto name ClassDef.providers_module)
                = Err (AttributeError "STATE_FIELDS") ∧
              ClassDef.import_from name = Err (AttributeError "STATE_FIELDS"))
      ClassDef.concrete_classes.
Proof.
  eexists _, _. split; [vm_compute; reflexivity|]. split; [reflexivity|].
  split; [reflexivity|]. split.
  { repeat constructor. }
  split.
  { intros ns. pose proof (assoc_without "STATE_FIELDS" ns) as H.
    set (ns' := List.filter _ ns) in *. clearbody ns'.
    unfold ClassDef.exec_mstmt, ClassDef.exec_class. simpl.
    rewrite H. reflexivity. }
  repeat constructor.
Qed.

(** C2 (as amended): the policy [inject] uses when the caller does not
    specify [respect_none] is [respect_none=True].  Under it, for
    [def f(x, y=Provide[p])], an explicit [None] for [y] is dropped before
    binding and [f] receives the value the provider resolves to, while the
    sentinel is passed to [f] as it is.  Under [respect_none=False], given
    explicitly, it is the other way round: the sentinel is dropped and the
    provider resolved, [None] is passed to [f] as it is. *)
Theorem inject_default_policy_respects_none
    (fn_sem : string → list call → list value → list (string * value) → result value)
    (name : string) (p : provider) (x v : value) (st st1 : state) :
  plain x →
  get fn_sem p st = (Ok v, st1) →
  let f := f_xy name p in
  let by_default := inject fn_sem (Some (FuncCallable f)) None in
  let respecting := inject fn_sem (Some (FuncCallable f)) (Some true) in
  let ignoring := inject fn_sem (Some (FuncCallable f)) (Some false) in
  let injected :=
    (fn_sem name (log st1) [x; v] [], add_call (Call ByWrapper name [x; v] []) st1) in
  let passed y :=
    (fn_sem name (log st) [x; y] [], add_call (Call ByWrapper name [x; y] []) st) in
  by_default = respecting ∧
  call_wrapped by_default [x; VNone] [] st = injected ∧
  call_wrapped by_default [x] [("y", VNone)] st = injected ∧
  call_wrapped by_default [x; VSentinel] [] st = passed VSentinel ∧
  call_wrapped by_default [x] [("y", VSentinel)] st = passed VSentinel ∧
  call_wrapped ignoring [x; VNone] [] st = passed VNone ∧
  call_wrapped ignoring [x] [("y", VNone)] st = passed VNone ∧
  call_wrapped ignoring [x; VSentinel] [] st = injected ∧
  call_wrapped ignoring [x] [("y", VSentinel)] st = injected ∧
  call_decorated (inject fn_sem None None) f [x; VNone] [] st = injected ∧
  call_decorated (inject fn_sem None (Some false)) f [x; VNone] [] st = passed VNone.
Proof.
  intros Hx E; cbn zeta.
  destruct (inject_respect_none fn_sem name p x v st st1 Hx E) as (R1 & R2 & R3 & R4).
  destruct (inject_ignore_none fn_sem name p x v st st1 Hx E) as (I1 & I2 & I3 & I4).
  unfold inject, call_wrapped, call_decorated. cbn [default].
  change (default true None) with true.
  change (default true (Some true)) with true.
  change (default true (Some false)) with false.
  change (default FuncNone None) with FuncNone.
  change (default FuncNone (Some (FuncCallable (f_xy name p))))
    with (FuncCallable (f_xy name p)).
  cbv beta iota. repeat split; assumption.
Qed.

Lemma plain_int (z : Z) : plain (int_ z).
Proof. by repeat split. Defined.

Lemma inject_default_policy_witness :
  plain (int_ 1) ∧
  get demo_fn p42 st_p = (Ok (int_ 42), st_p) ∧
  call_wrapped (inject demo_fn (Some (FuncCallable (f_xy "second" p42))) None)
    [int_ 1; VNone] [] st_p
  = (Ok (int_ 42), add_call (Call ByWrapper "second" [int_ 1; int_ 42] []) st_p) ∧
  call_wrapped (inject demo_fn (Some (FuncCallable (f_xy "second" p42))) (Some false))
    [int_ 1; VNone] [] st_p
  = (Ok VNone, add_call (Call ByWrapper "second" [int_ 1; VNone] []) st_p).
Proof.
  split; [apply plain_int|]. split; [reflexivity|].
  pose proof (inject_default_policy_respects_none demo_fn "second" p42
                (int_ 1) (int_ 42) st_p st_p (plain_int 1) eq_refl) as H.
  cbn zeta in H. destruct H as (_ & H1 & _ & _ & _ & H2 & _).
  split; [exact H1|exact H2].
Defined.

(** C2 (as stated) fails: with [inject] called without [respect_none],
    [f(1, None)] does not pass [None] through; [f] is called with
    [(1, 42)], the value of the provider, and an explicit sentinel is not
    filtered out but reaches [f]. *)
Lemma inject_default_drops_none :
  call_wrapped (inject demo_fn (Some (FuncCallable (f_xy "second" p42))) None)
    [int_ 1; VNone] [] st_p
  = (Ok (int_ 42), add_call (Call ByWrapper "second" [int_ 1; int_ 42] []) st_p) ∧
  call_wrapped (inject demo_fn (Some (FuncCallable (f_xy "second" p42))) None)
    [int_ 1; VSentinel] [] st_p
  = (Ok VSentinel, add_call (Call ByWrapper "second" [int_ 1; VSentinel] []) st_p) ∧
  Ok (int_ 42) ≠ demo_fn "second" [] [int_ 1; VNone] [].
Proof. split; [reflexivity|]. split; [reflexivity|]. discriminate. Qed.

Lemma sentinel_free_st_a : sentinel_free (heap st_a).
Proof.
  apply sentinel_free_check. intros l d Hl k v Hk. cbn in Hl.
  destruct (decide (l = 1%positive)) as [->|H1].
  - rewrite lookup_insert_eq in Hl. inversion Hl; subst.
    destruct (decide (k = "a")) as [->|Hk'].
    + rewrite lookup_singleton_eq in Hk. by inversion Hk.
    + by rewrite lookup_singleton_ne in Hk.
  - rewrite lookup_insert_ne in Hl by done.
    destruct (decide (l = 2%positive)) as [->|H2].
    + rewrite lookup_singleton_eq in Hl. inversion Hl; subst.
      by rewrite lookup_empty in Hk.
    + by rewrite lookup_singleton_ne in Hl.
Defined.

(** C3 (as amended): for a value that is not the sentinel, [set] followed
    by [get] returns exactly that value, whatever [_provide] would compute,
    on every provider that inherits [set] and [get] from [Provider] and on
    a [Configuration]; on a configuration path provider it does so when the
    configuration holds a dict as data that is not its fallback object, the
    path can be descended (segments present hold dicts), no dict stores the
    sentinel and the final write does not replace a link of the path. *)
Theorem set_then_get_returns_value
    (fn_sem : string → list call → list value → list (string * value) → result value)
    (p : provider) (v : value) (st : state) :
  is_sentinel v = false →
  match p with
  | PConfigurationItem id c path =>
      ∀ pre k l0,
        path = pre ++ [k] →
        data st (config_id c) = VDict l0 →
        py_is (VDict l0) (fallback c) = false →
        sentinel_free (heap st) →
        settable (heap st) (VDict l0) pre →
        no_revisit (heap st) (VDict l0) pre k →
        ∃ st', set p v st = (Ok tt, st') ∧ get fn_sem p st' = (Ok v, st')
  | _ => ∃ st', set p v st = (Ok tt, st') ∧ get fn_sem p st' = (Ok v, st')
  end.
Proof.
  intros Hv.
  destruct p as [i|i x|i f a k|i f a k|c|i c path].
  1-4: by apply set_get_inherited.
  - by apply set_get_configuration.
  - intros pre k l0 -> Hd Hf Hsf Hs Hn. by eapply set_get_path.
Qed.

Lemma set_then_get_witness :
  (∃ st', set (PStatic 1 (int_ 42)) VNone st_p = (Ok tt, st') ∧
          get demo_fn (PStatic 1 (int_ 42)) st' = (Ok VNone, st')) ∧
  (∃ st', set (PConfigurationItem 2 config ["a"; "c"]) (int_ 5) st_a = (Ok tt, st') ∧
          get demo_fn (PConfigurationItem 2 config ["a"; "c"]) st' = (Ok (int_ 5), st')).
Proof.
  split.
  - exact (set_then_get_returns_value demo_fn (PStatic 1 (int_ 42)) VNone st_p eq_refl).
  - refine (set_then_get_returns_value demo_fn (PConfigurationItem 2 config ["a"; "c"])
              (int_ 5) st_a eq_refl ["a"] "c" 1%positive eq_refl eq_refl eq_refl
              sentinel_free_st_a _ _).
    + eapply settable_present; [reflexivity|reflexivity|].
      eapply settable_nil. reflexivity.
    + apply no_revisit_fresh_key. intros H.
      apply elem_of_cons in H as [H|H]; [discriminate|]. by apply elem_of_nil in H.
Defined.

(** C3 (as stated) fails: [Static(7).set(not_passed)] leaves the provider
    without override, so [get] returns 7; and on a configuration without
    data whose fallback is a dict, [config.b.set(5)] succeeds (it writes
    into the fallback) but [config.b.get()] returns the whole fallback. *)
Lemma set_then_get_counterexample :
  get demo_fn (PStatic 1 (int_ 7)) (snd (set (PStatic 1 (int_ 7)) VSentinel st_p))
  = (Ok (int_ 7), snd (set (PStatic 1 (int_ 7)) VSentinel st_p)) ∧
  fst (set (PConfigurationItem 2 config_fb ["b"]) (int_ 5) st_fb) = Ok tt ∧
  fst (get demo_fn (PConfigurationItem 2 config_fb ["b"])
         (snd (set (PConfigurationItem 2 config_fb ["b"]) (int_ 5) st_fb)))
  = Ok (VDict 1) ∧
  fst (set (PConfigurationItem 2 config ["a"; "a"]) (int_ 5) st_cycle) = Ok tt ∧
  fst (get demo_fn (PConfigurationItem 2 config ["a"; "a"])
         (snd (set (PConfigurationItem 2 config ["a"; "a"]) (int_ 5) st_cycle)))
  = Err TypeError.
Proof. vm_compute. repeat split. Qed.

(** C4: on a [MemoizedCallable] without override, once the cache holds a
    real value every [get] returns it and leaves the state as it is (no
    call, no argument resolved), also when [set] and [reset] are called on
    other providers and [reset] on the provider itself in between; the
    [get] that fills the cache resolves the arguments and calls the
    function once; a function that returns real values is called at
    most once over any such sequence of operations; and [reset] stores the
    sentinel in the override and leaves the cache as it is. *)
Theorem memoized_callable_invoked_once
    (fn_sem : string → list call → list value → list (string * value) → result value)
    (id : positive) (f : string) (args : list value)
    (kwargs : list (string * value)) (st : state) (ops : list op) :
  let p := PMemoizedCallable id f args kwargs in
  override st id = VSentinel →
  Forall (other_than id) ops →
  (is_sentinel (cache st id) = false →
   get fn_sem p st = (Ok (cache st id), st) ∧
   Forall (fun r => r = Ok (cache st id)) (fst (run_ops fn_sem p ops st)) ∧
   log (snd (run_ops fn_sem p ops st)) = log st ∧
   cache (snd (run_ops fn_sem p ops st)) id = cache st id) ∧
  (cache st id = VSentinel →
   ∀ v st', get fn_sem p st = (Ok v, st') →
     ∃ a st1 k st2,
       resolved_args fn_sem args st a st1 ∧
       resolved_kwargs fn_sem kwargs st1 k st2 ∧
       fn_sem f (log st2) a k = Ok v ∧
       st' = set_cache id v (add_call (Call (ByProvider id) f a k) st2) ∧
       override st' id = VSentinel ∧ cache st' id = v) ∧
  (id ∉ nested_ids p → returns_real fn_sem f →
   (calls_by id (log (snd (run_ops fn_sem p ops st)))
    ≤ calls_by id (log st) + (if is_sentinel (cache st id) then 1 else 0))%nat) ∧
  (∀ st0, reset p st0 = (Ok tt, set_override id VSentinel st0) ∧
          override (set_override id VSentinel st0) id = VSentinel ∧
          cache (set_override id VSentinel st0) id = cache st0 id).
Proof.
  intros p Ho Hops. split; [|split; [|split]].
  - intros Hc. split; [by apply memoized_get_cached|].
    by apply memoized_ops.
  - intros Hc v st' E. by eapply memoized_first_get.
  - intros Hn Hf. by apply memoized_at_most_once.
  - intros st0. split; [reflexivity|]. split; [|reflexivity].
    unfold override. cbn. by rewrite lookup_insert_eq.
Qed.

Lemma demo_counter_real : returns_real demo_fn "counter".
Proof. intros h a k. eexists. split; reflexivity. Defined.

Lemma memoized_callable_witness :
  fst (run_ops demo_fn memo
         [OpGet; OpSetOther q1 (int_ 9); OpGet; OpReset; OpResetOther q1; OpGet] st_q)
  = [Ok (int_ 1); Ok (int_ 1); Ok (int_ 1)] ∧
  (calls_by 3
     (log (snd (run_ops demo_fn memo
                  [OpGet; OpSetOther q1 (int_ 9); OpGet; OpReset; OpResetOther q1; OpGet]
                  st_q)))
   ≤ 1)%nat.
Proof.
  split; [reflexivity|].
  refine (proj1 (proj2 (proj2 (memoized_callable_invoked_once demo_fn 3 "counter"
                          [VProv q1] [] st_q
                          [OpGet; OpSetOther q1 (int_ 9); OpGet; OpReset;
                           OpResetOther q1; OpGet] eq_refl _))) _ demo_counter_real).
  - repeat constructor; discriminate.
  - cbn. intros H. apply elem_of_cons in H as [H|H]; [discriminate|].
    by apply elem_of_nil in H.
Defined.

(** C5: a [Configuration] without data returns its fallback if it has one
    and raises [ValueError("Configuration Provider not initialized")]
    otherwise; with data it returns the data; [set] of the sentinel changes
    nothing; [set] of any other value makes it the data; [reset] always
    raises [NotImplementedError]. *)
Theorem configuration_state_machine
    (fn_sem : string → list call → list value → list (string * value) → result value)
    (c : configuration) (st : state) :
  (is_sentinel (data st (config_id c)) = true →
   is_sentinel (fallback c) = false →
   get fn_sem (PConfiguration c) st = (Ok (fallback c), st)) ∧
  (is_sentinel (data st (config_id c)) = true →
   is_sentinel (fallback c) = true →
   get fn_sem (PConfiguration c) st
   = (Err (ValueError "Configuration Provider not initialized"), st)) ∧
  (is_sentinel (data st (config_id c)) = false →
   get fn_sem (PConfiguration c) st = (Ok (data st (config_id c)), st)) ∧
  set (PConfiguration c) VSentinel st = (Ok tt, st) ∧
  reset (PConfiguration c) st = (Err NotImplementedError, st) ∧
  (∀ v, is_sentinel v = false →
        ∃ st', set (PConfiguration c) v st = (Ok tt, st') ∧
               data st' (config_id c) = v ∧
               get fn_sem (PConfiguration c) st' = (Ok v, st')).
Proof.
  cbn [get set reset].
  unfold Configuration_get, Configuration_set, Configuration_reset.
  repeat split.
  - intros -> ->. reflexivity.
  - intros -> ->. reflexivity.
  - intros ->. reflexivity.
  - intros v Hv. rewrite Hv. eexists. split; [reflexivity|].
    assert (Hd : data (set_data (config_id c) v st) (config_id c) = v).
    { unfold data, set_data. cbn. by rewrite lookup_insert_eq. }
    split; [exact Hd|]. rewrite Hd, Hv. reflexivity.
Qed.

Lemma configuration_state_machine_witness :
  get demo_fn (PConfiguration config_X) st_X = (Ok (str_ 7 "X"), st_X) ∧
  get demo_fn (PConfiguration config) st_X
  = (Err (ValueError "Configuration Provider not initialized"), st_X) ∧
  get demo_fn (PConfiguration config) st_a = (Ok (VDict 1), st_a) ∧
  ∃ st', set (PConfiguration config) (VDict 1) st_X = (Ok tt, st') ∧
         data st' 1 = VDict 1 ∧
         get demo_fn (PConfiguration config) st' = (Ok (VDict 1), st').
Proof.
  split; [exact (proj1 (configuration_state_machine demo_fn config_X st_X)
                   eq_refl eq_refl)|].
  split; [exact (proj1 (proj2 (configuration_state_machine demo_fn config st_X))
                   eq_refl eq_refl)|].
  split; [exact (proj1 (proj2 (proj2 (configuration_state_machine demo_fn config st_a)))
                   eq_refl)|].
  exact (proj2 (proj2 (proj2 (proj2 (proj2
           (configuration_state_machine demo_fn config st_X))))) (VDict 1) eq_refl).
Defined.

(** C7: on a path provider over a configuration whose data is a dict that
    is not its fallback object, [get] returns [v] exactly when the segments,
    looked up left to right in the dicts as they are now, lead to [v]; and
    when a prefix of the path leads to a dict without the next segment,
    [get] raises [KeyError] for that segment. *)
Theorem path_get_walks_live_mapping
    (fn_sem : string → list call → list value → list (string * value) → result value)
    (c : configuration) (id : positive) (path : list string)
    (st : state) (l0 : positive) :
  data st (config_id c) = VDict l0 →
  py_is (VDict l0) (fallback c) = false →
  (∀ v, get fn_sem (PConfigurationItem id c path) st = (Ok v, st)
        ↔ walks (heap st) (VDict l0) path v) ∧
  (∀ pre k post l d,
     path = pre ++ k :: post →
     walks (heap st) (VDict l0) pre (VDict l) →
     heap st !! l = Some d → d !! k = None →
     get fn_sem (PConfigurationItem id c path) st = (Err (KeyError k), st)).
Proof. apply path_get_walks. Qed.

Lemma path_get_witness :
  (∃ p st', getattrs (PConfiguration config) ["a"; "b"] st_a_b = (Ok p, st') ∧
            get demo_fn p st' = (Ok (int_ 1), st')) ∧
  (∃ p st', getattrs (PConfiguration config) ["a"; "c"] st_a_b = (Ok p, st') ∧
            get demo_fn p st' = (Err (KeyError "c"), st')).
Proof.
  split; eexists _, _; (split; [reflexivity|]).
  - match goal with |- get _ (PConfigurationItem ?i _ _) ?s = _ =>
      apply (proj1 (path_get_walks_live_mapping demo_fn config i ["a"; "b"] s
                      1%positive eq_refl eq_refl))
    end.
    eapply walks_cons; [reflexivity|reflexivity|].
    eapply walks_cons; [reflexivity|reflexivity|]. apply walks_nil.
  - match goal with |- get _ (PConfigurationItem ?i _ _) ?s = _ =>
      apply (proj2 (path_get_walks_live_mapping demo_fn config i ["a"; "c"] s
                      1%positive eq_refl eq_refl)
               ["a"] "c" [] 2%positive {["b" := int_ 1]} eq_refl)
    end.
    + eapply walks_cons; [reflexivity|reflexivity|]. apply walks_nil.
    + reflexivity.
    + reflexivity.
Defined.

(** C8: on a configuration without data and with a fallback, [get] returns
    the fallback, and so does [get] on every path provider over it, for any
    path and any chain of attribute accesses, with no segment looked up;
    in any state, [get] on a path provider returns the fallback exactly
    when the value the configuration resolves to is the fallback object,
    and walks the path from that value otherwise. *)
Theorem fallback_short_circuit
    (fn_sem : string → list call → list value → list (string * value) → result value)
    (c : configuration) (st : state) :
  (data st (config_id c) = VSentinel → is_sentinel (fallback c) = false →
   get fn_sem (PConfiguration c) st = (Ok (fallback c), st) ∧
   (∀ id path,
      get fn_sem (PConfigurationItem id c path) st = (Ok (fallback c), st)) ∧
   (∀ names q st', names ≠ [] →
      getattrs (PConfiguration c) names st = (Ok q, st') →
      get fn_sem q st' = (Ok (fallback c), st'))) ∧
  (∀ id path v,
     get fn_sem (PConfiguration c) st = (Ok v, st) →
     get fn_sem (PConfigurationItem id c path) st
     = if py_is v (fallback c) then (Ok (fallback c), st)
       else get_loop path v st) ∧
  (∀ id path e,
     get fn_sem (PConfiguration c) st = (Err e, st) →
     get fn_sem (PConfigurationItem id c path) st = (Err e, st)).
Proof.
  split; [|split].
  - intros Hd Hf. by apply fallback_whole_tree.
  - intros id path. apply item_get_guard.
  - intros id path. apply item_get_guard.
Qed.

Lemma fallback_short_circuit_witness :
  get demo_fn (PConfiguration config_X) st_X = (Ok (str_ 7 "X"), st_X) ∧
  ∃ q st', getattrs (PConfiguration config_X) ["anything"] st_X = (Ok q, st') ∧
           get demo_fn q st' = (Ok (str_ 7 "X"), st').
Proof.
  destruct (proj1 (fallback_short_circuit demo_fn config_X st_X) eq_refl eq_refl)
    as (H1 & _ & H3).
  split; [exact H1|]. eexists _, _. split; [reflexivity|].
  eapply (H3 ["anything"]); [discriminate|reflexivity].
Defined.

(** C6: [set] of a value that is not the sentinel on a path provider, over
    a configuration whose data is a dict: when it succeeds, the segments
    before the last were descended as the specification says (present:
    descended into, heap unchanged; missing: a new empty dict is stored
    under the key and descended into) and the value is stored under the
    last segment in the dict reached; it succeeds whenever the segments
    present hold dicts; and when every segment before the last is present,
    the store under the last segment is the only change. *)
Theorem path_set_materializes_missing
    (c : configuration) (id : positive) (pre : list string)
    (k : string) (v : value) (st : state) (l0 : positive) :
  is_sentinel v = false →
  data st (config_id c) = VDict l0 →
  sentinel_free (heap st) →
  (∀ st', set (PConfigurationItem id c (pre ++ [k])) v st = (Ok tt, st') →
     ∃ h1 l d,
       descends (heap st) (VDict l0) pre h1 (VDict l) ∧ h1 !! l = Some d ∧
       st' = set_heap (<[l := <[k := v]> d]> h1) st) ∧
  (settable (heap st) (VDict l0) pre →
     ∃ st', set (PConfigurationItem id c (pre ++ [k])) v st = (Ok tt, st')) ∧
  (∀ l d, walks (heap st) (VDict l0) pre (VDict l) → heap st !! l = Some d →
     set (PConfigurationItem id c (pre ++ [k])) v st
     = (Ok tt, set_heap (<[l := <[k := v]> d]> (heap st)) st)).
Proof. apply path_set_descends. Qed.

Lemma path_set_witness :
  ∃ st',
    set (PConfigurationItem 2 config ["a"; "c"]) (int_ 5) st_a = (Ok tt, st') ∧
    get demo_fn (PConfiguration config) st' = (Ok (VDict 1), st') ∧
    denote 3 (heap st') (VDict 1)
    = Some (DDict {["a" := DDict {["c" := DInt 5]}]}) ∧
    dom (heap st') = dom (heap st_a).
Proof.
  eexists. split.
  - apply (proj2 (proj2 (path_set_materializes_missing config 2 ["a"] "c" (int_ 5)
                           st_a 1%positive eq_refl eq_refl sentinel_free_st_a))
             2%positive ∅).
    + eapply walks_cons; [reflexivity|reflexivity|]. apply walks_nil.
    + reflexivity.
  - split; [reflexivity|]. split; [vm_compute; reflexivity|].
    vm_compute. reflexivity.
Defined.

(** [config.x.y.set(5)] on [data={"a": {}}]: the missing segment [x] is
    created. *)
Example path_set_creates_missing :
  let st' := snd (set (PConfigurationItem 2 config ["x"; "y"]) (int_ 5) st_a) in
  fst (set (PConfigurationItem 2 config ["x"; "y"]) (int_ 5) st_a) = Ok tt ∧
  denote 3 (heap st') (VDict 1)
  = Some (DDict (<["x" := DDict {["y" := DInt 5]}]> {["a" := DDict ∅]})).
Proof. cbn zeta. split; vm_compute; reflexivity. Qed.

(** C9: for [def f(x, y=Provide[p])] wrapped by [inject], under either
    policy: called with [x] only, [f] is called with [x] and the value
    [p.get()] returns (the value of a [Static] without override); called
    with [x] and an explicit [y], positionally or by keyword, [f] is called
    with exactly these. *)
Theorem inject_replaces_provider_default
    (fn_sem : string → list call → list value → list (string * value) → result value)
    (name : string) (p : provider) (x y v : value) (st st1 : state)
    (respect_none : option bool) :
  plain x → plain y →
  get fn_sem p st = (Ok v, st1) →
  let wrapped := inject fn_sem (Some (FuncCallable (f_xy name p))) respect_none in
  call_wrapped wrapped [x] [] st
  = (fn_sem name (log st1) [x; v] [], add_call (Call ByWrapper name [x; v] []) st1) ∧
  call_wrapped wrapped [x; y] [] st
  = (fn_sem name (log st) [x; y] [], add_call (Call ByWrapper name [x; y] []) st) ∧
  call_wrapped wrapped [x] [("y", y)] st
  = (fn_sem name (log st) [x; y] [], add_call (Call ByWrapper name [x; y] []) st) ∧
  (∀ id v0, p = PStatic id v0 → override st id = VSentinel → v = v0 ∧ st1 = st).
Proof.
  intros Hx Hy E. cbn zeta. unfold inject, call_wrapped.
  change (default FuncNone (Some (FuncCallable (f_xy name p))))
    with (FuncCallable (f_xy name p)). cbv beta iota.
  split; [by apply inject_omitted|].
  destruct (inject_explicit fn_sem name p x y st (default true respect_none) Hx Hy)
    as [H1 H2].
  split; [exact H1|]. split; [exact H2|].
  intros id v0 -> Ho. cbn [get] in E. unfold Provider_get, Static_provide, ret in E.
  rewrite Ho in E. cbn in E. by inversion E.
Qed.

Lemma inject_scenario_witness :
  call_wrapped (inject demo_fn (Some (FuncCallable (f_xy "second" p42))) None)
    [int_ 1] [] st_p
  = (Ok (int_ 42), add_call (Call ByWrapper "second" [int_ 1; int_ 42] []) st_p) ∧
  call_wrapped (inject demo_fn (Some (FuncCallable (f_xy "second" p42))) None)
    [int_ 1; int_ 7] [] st_p
  = (Ok (int_ 7), add_call (Call ByWrapper "second" [int_ 1; int_ 7] []) st_p).
Proof.
  pose proof (inject_replaces_provider_default demo_fn "second" p42 (int_ 1) (int_ 7)
                (int_ 42) st_p st_p None (plain_int 1) (plain_int 7) eq_refl) as H.
  cbn zeta in H. destruct H as (H1 & H2 & _). split; [exact H1|exact H2].
Defined.

(** C10: on a [Callable] without override, a [get] whose arguments resolve
    (each provider replaced by what its [get] returns in the current state,
    other values as they are) calls the function once with the resolved
    arguments and returns its result, which adds exactly one call by this
    provider; [n] successive [get] calls add [n] calls. *)
Theorem callable_invoked_every_get
    (fn_sem : string → list call → list value → list (string * value) → result value)
    (id : positive) (f : string) (args : list value)
    (kwargs : list (string * value)) (st : state) :
  let p := PCallable id f args kwargs in
  override st id = VSentinel →
  (∀ a st1 k st2,
     resolved_args fn_sem args st a st1 →
     resolved_kwargs fn_sem kwargs st1 k st2 →
     get fn_sem p st
     = (fn_sem f (log st2) a k, add_call (Call (ByProvider id) f a k) st2) ∧
     (id ∉ nested_ids p →
      calls_by id (log (snd (get fn_sem p st))) = S (calls_by id (log st)))) ∧
  (∀ n, id ∉ nested_ids p → always_resolves fn_sem args kwargs →
        calls_by id (log (get_n fn_sem n p st)) = calls_by id (log st) + n).
Proof.
  intros p Ho. split.
  - intros a st1 k st2 Ra Rk.
    apply inject_args_resolved in Ra. apply inject_kwargs_resolved in Rk.
    split; [by eapply callable_get_invokes|].
    intros Hn. by eapply callable_get_count.
  - intros n Hn Hr. by apply callable_get_n.
Qed.

Lemma demo_always_resolves :
  always_resolves demo_fn [VProv q1; int_ 3] [("k", VProv q1)].
Proof.
  intros st.
  exists [if is_sentinel (override st 2) then int_ 1 else override st 2; int_ 3],
         st, [("k", if is_sentinel (override st 2) then int_ 1 else override st 2)], st.
  cbn. unfold bind, Provider_get, Static_provide, ret.
  destruct (is_sentinel (override st 2)); split; reflexivity.
Defined.

Lemma callable_witness :
  calls_by 3 (log (get_n demo_fn 3 plain_callable st_q)) = 3 ∧
  fst (get demo_fn plain_callable (get_n demo_fn 2 plain_callable st_q))
  = Ok (int_ 3).
Proof.
  split; [|reflexivity].
  refine (proj2 (callable_invoked_every_get demo_fn 3 "counter"
                   [VProv q1; int_ 3] [("k", VProv q1)] st_q eq_refl)
            3 _ demo_always_resolves).
  cbn. intros H.
  apply elem_of_cons in H as [H|H]; [discriminate|].
  apply elem_of_cons in H as [H|H]; [discriminate|].
  by apply elem_of_nil in H.
Defined.

(** * Further properties of the code *)

(** ** The override layer *)

Lemma set_override_twice id v w st :
  set_override id w (set_override id v st) = set_override id w st.
Proof. unfold set_override. cbn. by rewrite insert_insert_eq. Qed.

Lemma set_override_same id v st :
  overrides st !! id = Some v → set_override id v st = st.
Proof.
  intros H. destruct st as [o c d h l]. unfold set_override. cbn in *.
  by rewrite insert_id.
Qed.

(** X1: on a provider that inherits [set] and [reset] from [Provider] and
    has no override, [reset] after [set] gives back the very state, so the
    next [get] does what it did before the [set]; and [set] of the sentinel
    is [reset]. *)
Theorem set_reset_restores_state
    (fn_sem : string → list call → list value → list (string * value) → result value)
    (p : provider) (v : value) (st : state) :
  inherits_set_get p = true →
  overrides st !! provider_id p = Some VSentinel →
  snd (reset p (snd (set p v st))) = st ∧
  get fn_sem p (snd (reset p (snd (set p v st)))) = get fn_sem p st ∧
  set p VSentinel st = reset p st.
Proof.
  intros Hp Ho.
  assert (snd (reset p (snd (set p v st))) = st) as E.
  { destruct p as [i|i x|i f a k|i f a k|c|i c path]; try discriminate; cbn in *;
      rewrite set_override_twice; by apply set_override_same. }
  split; [exact E|]. split; [by rewrite E|].
  destruct p; try discriminate; reflexivity.
Qed.

Lemma set_reset_witness :
  snd (reset p42 (snd (set p42 (int_ 7) st_p))) = st_p ∧
  get demo_fn p42 (snd (reset p42 (snd (set p42 (int_ 7) st_p))))
  = (Ok (int_ 42), st_p).
Proof.
  destruct (set_reset_restores_state demo_fn p42 (int_ 7) st_p eq_refl eq_refl)
    as (H1 & H2 & _).
  split; [exact H1|]. rewrite H2. reflexivity.
Defined.




(** ** [_inject_args] and [_inject_kwargs] *)

Lemma inject_args_shape (g : provider → M value) args : ∀ st vs st',
  _inject_args g args st = (Ok vs, st') →
  length vs = length args ∧
  ∀ i a, args !! i = Some a → is_provider a = false → vs !! i = Some a.
Proof.
  induction args as [|a args IH]; intros st vs st' E.
  - cbn in E. inversion E; subst. split; [done|]. intros i a H. by destruct i.
  - cbn [_inject_args] in E. unfold bind in E.
    destruct (match a with VProv p => g p | _ => ret a end st) as [[v|e] st1] eqn:E1;
      [|discriminate].
    destruct (_inject_args g args st1) as [[vs1|e] st2] eqn:E2; [|discriminate].
    inversion E; subst. destruct (IH _ _ _ E2) as [Hl Hp].
    split; [cbn; by rewrite Hl|].
    intros [|i] b Hb Hnp; cbn in *.
    + inversion Hb; subst. destruct b; try discriminate; by inversion E1.
    + eauto.
Qed.

Lemma inject_kwargs_shape (g : provider → M value) kwargs : ∀ st vs st',
  _inject_kwargs g kwargs st = (Ok vs, st') →
  map fst vs = map fst kwargs ∧
  ∀ i k a, kwargs !! i = Some (k, a) → is_provider a = false →
           vs !! i = Some (k, a).
Proof.
  induction kwargs as [|[k a] kwargs IH]; intros st vs st' E.
  - cbn in E. inversion E; subst. split; [done|]. intros i k a H. by destruct i.
  - cbn [_inject_kwargs] in E. unfold bind in E.
    destruct (match a with VProv p => g p | _ => ret a end st) as [[v|e] st1] eqn:E1;
      [|discriminate].
    destruct (_inject_kwargs g kwargs st1) as [[vs1|e] st2] eqn:E2; [|discriminate].
    inversion E; subst. destruct (IH _ _ _ E2) as [Hl Hp].
    split; [cbn; by rewrite Hl|].
    intros [|i] k' b Hb Hnp; cbn in *.
    + inversion Hb; subst. destruct b; try discriminate; by inversion E1.
    + eauto.
Qed.

(** X4: when [_inject_args] and [_inject_kwargs] return, the result has
    as many positional values as were given, the same keywords in the same
    order, and every value that is not a provider at its place. *)
Theorem inject_args_keep_shape
    (fn_sem : string → list call → list value → list (string * value) → result value)
    (args : list value) (kwargs : list (string * value))
    (st st1 st2 : state) (a : list value) (k : list (string * value)) :
  _inject_args (get fn_sem) args st = (Ok a, st1) →
  _inject_kwargs (get fn_sem) kwargs st1 = (Ok k, st2) →
  length a = length args ∧
  (∀ i x, args !! i = Some x → is_provider x = false → a !! i = Some x) ∧
  map fst k = map fst kwargs ∧
  (∀ i n x, kwargs !! i = Some (n, x) → is_provider x = false →
            k !! i = Some (n, x)).
Proof.
  intros E1 E2.
  destruct (inject_args_shape _ _ _ _ _ E1) as [H1 H2].
  destruct (inject_kwargs_shape _ _ _ _ _ E2) as [H3 H4].
  repeat split; assumption.
Qed.

Lemma inject_args_keep_shape_witness :
  _inject_args (get demo_fn) [VProv q1; int_ 3] st_q = (Ok [int_ 1; int_ 3], st_q) ∧
  length [int_ 1; int_ 3] = length [VProv q1; int_ 3] ∧
  map fst [("k", int_ 1)] = map fst [("k", VProv q1)].
Proof.
  split; [reflexivity|].
  destruct (inject_args_keep_shape demo_fn [VProv q1; int_ 3] [("k", VProv q1)]
              st_q st_q st_q [int_ 1; int_ 3] [("k", int_ 1)] eq_refl eq_refl)
    as (H1 & _ & H3 & _).
  split; [exact H1|exact H3].
Defined.

(** ** Callables and memoized callables *)

Section Calls.
Variable fn_sem :
  string → list call → list value → list (string * value) → result value.

Lemma quiet_args id (args : list value) :
  id ∉ flat_map (fun a => match a with
                          | VProv q => provider_id q :: nested_ids q
                          | _ => []
                          end) args →
  Forall (on_arg (quiet fn_sem id)) args.
Proof.
  apply nested_args_quiet.
  induction args as [|a args IH]; constructor; [|done].
  destruct a; cbn; try done. apply get_quiet.
Qed.

Lemma quiet_kwargs id (kwargs : list (string * value)) :
  id ∉ flat_map (fun kv => match snd kv with
                           | VProv q => provider_id q :: nested_ids q
                           | _ => []
                           end) kwargs →
  Forall (fun kv => on_arg (quiet fn_sem id) (snd kv)) kwargs.
Proof.
  apply nested_kwargs_quiet.
  induction kwargs as [|[k a] kwargs IH]; constructor; [|done].
  destruct a; cbn; try done. apply get_quiet.
Qed.

(** One [get] on a memoized callable whose function gives no real value. *)
Lemma memoized_get_retry id f args kwargs st :
  override st id = VSentinel → is_sentinel (cache st id) = true →
  id ∉ nested_ids (PMemoizedCallable id f args kwargs) →
  never_real fn_sem f → always_resolves fn_sem args kwargs →
  let st' := snd (get fn_sem (PMemoizedCallable id f args kwargs) st) in
  override st' id = VSentinel ∧ is_sentinel (cache st' id) = true ∧
  calls_by id (log st') = S (calls_by id (log st)).
Proof.
  intros Ho Hc Hn Hf Hr.
  destruct (get fn_sem (PMemoizedCallable id f args kwargs) st) as [r st'] eqn:E.
  cbn [snd]. split.
  { pose proof (get_get_frame fn_sem _ _ _ _ E) as (Hov & _).
    unfold override. rewrite Hov. exact Ho. }
  cbn [nested_ids] in Hn. apply not_elem_of_app in Hn as [Hna Hnk].
  pose proof (quiet_args id args Hna) as Qa.
  pose proof (quiet_kwargs id kwargs Hnk) as Qk.
  cbn [get] in E. unfold Provider_get in E. rewrite Ho in E. cbn in E.
  unfold MemoizedCallable_provide in E. rewrite Hc in E. cbn in E.
  unfold bind in E.
  destruct (Hr st) as (a & st1 & k & st2 & E1 & E2). rewrite E1, E2 in E.
  destruct (inject_args_quiet fn_sem _ _ Qa _ _ _ E1) as [H1 H2].
  destruct (inject_kwargs_quiet fn_sem _ _ Qk _ _ _ E2) as [H3 H4].
  pose proof (calls_by_invoke_self fn_sem id f a k st2) as Hcnt.
  unfold invoke in *. cbn [snd] in Hcnt.
  specialize (Hf (log st2) a k).
  destruct (fn_sem f (log st2) a k) as [v|e].
  - unfold modify, ret in E. inversion E; subst. split.
    + unfold cache. cbn. by rewrite lookup_insert_eq.
    + cbn [log set_cache]. rewrite Hcnt. lia.
  - inversion E; subst. split.
    + change (cache (add_call (Call (ByProvider id) f a k) st2) id)
        with (cache st2 id). congruence.
    + rewrite Hcnt. lia.
Qed.

Lemma memoized_get_n_retry id f args kwargs n : ∀ st,
  override st id = VSentinel → is_sentinel (cache st id) = true →
  id ∉ nested_ids (PMemoizedCallable id f args kwargs) →
  never_real fn_sem f → always_resolves fn_sem args kwargs →
  calls_by id (log (get_n fn_sem n (PMemoizedCallable id f args kwargs) st))
  = calls_by id (log st) + n.
Proof.
  induction n as [|n IH]; intros st Ho Hc Hn Hf Hr; cbn [get_n]; [lia|].
  destruct (memoized_get_retry id f args kwargs st Ho Hc Hn Hf Hr) as (Ho' & Hc' & Hcnt).
  cbn zeta in *. rewrite IH by done. lia.
Qed.

(** A plain prefix and suffix around one provider argument. *)
Lemma inject_args_around (g : provider → M value) pre q post st :
  Forall (fun a => is_provider a = false) pre →
  Forall (fun a => is_provider a = false) post →
  _inject_args g (pre ++ VProv q :: post) st
  = match g q st with
    | (Ok v, st1) => (Ok (pre ++ v :: post), st1)
    | (Err e, st1) => (Err e, st1)
    end.
Proof.
  intros Hpre Hpost. induction Hpre as [|a pre Ha _ IH].
  - cbn [app _inject_args]. unfold bind.
    destruct (g q st) as [[v|e] st1]; [|done].
    by rewrite (inject_args_plain g post st1 Hpost).
  - cbn [app _inject_args]. unfold bind at 1.
    assert (match a with VProv p => g p | _ => ret a end st = (Ok a, st))
      as -> by (by destruct a).
    unfold bind at 1. rewrite IH.
    destruct (g q st) as [[v|e] st1]; reflexivity.
Qed.







End Calls.

(** X5: a memoized callable keeps nothing when its function raises or
    returns the sentinel: with arguments that resolve, [n] successive [get]
    calls call the function [n] times. *)
Theorem memoized_retries_without_real_value
    (fn_sem : string → list call → list value → list (string * value) → result value)
    (id : positive) (f : string) (args : list value)
    (kwargs : list (string * value)) (st : state) (n : nat) :
  let p := PMemoizedCallable id f args kwargs in
  override st id = VSentinel →
  is_sentinel (cache st id) = true →
  id ∉ nested_ids p →
  never_real fn_sem f →
  always_resolves fn_sem args kwargs →
  calls_by id (log (get_n fn_sem n p st)) = calls_by id (log st) + n ∧
  is_sentinel (cache (snd (get fn_sem p st)) id) = true.
Proof.
  intros p Ho Hc Hn Hf Hr. split.
  - by apply memoized_get_n_retry.
  - by destruct (memoized_get_retry fn_sem id f args kwargs st Ho Hc Hn Hf Hr)
      as (_ & H & _).
Qed.

Lemma demo_boom_never_real : never_real demo_fn "boom".
Proof. intros h a k. exact I. Defined.

Lemma demo_q1_resolves : always_resolves demo_fn [VProv q1] [].
Proof.
  intros st.
  exists [if is_sentinel (override st 2) then int_ 1 else override st 2], st, [], st.
  cbn. unfold bind, Provider_get, Static_provide, ret.
  destruct (is_sentinel (override st 2)); split; reflexivity.
Defined.

Lemma memoized_retries_witness :
  calls_by 3 (log (get_n demo_fn 3 memo_boom st_q)) = 3 ∧
  fst (get demo_fn memo_boom st_q) = Err (UserError "boom").
Proof.
  split; [|reflexivity].
  refine (proj1 (memoized_retries_without_real_value demo_fn 3 "boom" [VProv q1] []
                   st_q 3 eq_refl eq_refl _ demo_boom_never_real demo_q1_resolves)).
  cbn. intros H. apply elem_of_cons in H as [H|H]; [discriminate|].
  by apply elem_of_nil in H.
Defined.

(** X6: on a memoized callable the override and the cache are separate
    layers: with a value cached, [set(v)] makes [get] return [v], and after
    [reset] the cached value is returned again; no call is made on the
    way. *)
Theorem memoized_override_over_cache
    (fn_sem : string → list call → list value → list (string * value) → result value)
    (id : positive) (f : string) (args : list value)
    (kwargs : list (string * value)) (v : value) (st : state) :
  let p := PMemoizedCallable id f args kwargs in
  is_sentinel (cache st id) = false →
  is_sentinel v = false →
  let st1 := snd (set p v st) in
  let st2 := snd (reset p st1) in
  get fn_sem p st1 = (Ok v, st1) ∧
  get fn_sem p st2 = (Ok (cache st id), st2) ∧
  log st2 = log st.
Proof.
  intros p Hc Hv. subst p. cbn zeta. cbn [set reset snd].
  unfold Provider_set, Provider_reset, modify.
  cbn [snd]. split; [|split; [|reflexivity]].
  - cbn [get]. unfold Provider_get, override. cbn [overrides set_override].
    rewrite lookup_insert_eq. cbn. by rewrite Hv.
  - rewrite set_override_twice.
    assert (cache (set_override id VSentinel st) id = cache st id) as Hcc by reflexivity.
    rewrite <- Hcc. apply memoized_get_cached; [|by rewrite Hcc].
    unfold override. cbn. by rewrite lookup_insert_eq.
Qed.

Lemma memoized_override_witness :
  let st := snd (get demo_fn memo st_q) in
  get demo_fn memo (snd (set memo (int_ 9) st)) = (Ok (int_ 9), snd (set memo (int_ 9) st)) ∧
  fst (get demo_fn memo (snd (reset memo (snd (set memo (int_ 9) st))))) = Ok (int_ 1).
Proof.
  cbn zeta.
  destruct (memoized_override_over_cache demo_fn 3 "counter" [VProv q1] [] (int_ 9)
              (snd (get demo_fn memo st_q)) eq_refl eq_refl) as (H1 & H2 & _).
  split; [exact H1|]. exact (f_equal fst H2).
Defined.



(** X8: a plain callable sees a new override of a provider among its
    arguments at the next [get]: after [q.set(v)] the function is called
    with [v] in the place of [q]. *)
Theorem callable_sees_new_override
    (fn_sem : string → list call → list value → list (string * value) → result value)
    (id : positive) (f : string) (pre post : list value) (q : provider)
    (kwargs : list (string * value)) (v : value) (st : state) :
  let p := PCallable id f (pre ++ VProv q :: post) kwargs in
  let st1 := snd (set q v st) in
  override st id = VSentinel →
  provider_id q ≠ id →
  inherits_set_get q = true →
  is_sentinel v = false →
  Forall (fun a => is_provider a = false) pre →
  Forall (fun a => is_provider a = false) post →
  Forall (fun kv => is_provider (snd kv) = false) kwargs →
  get fn_sem p st1
  = (fn_sem f (log st) (pre ++ v :: post) kwargs,
     add_call (Call (ByProvider id) f (pre ++ v :: post) kwargs) st1).
Proof.
  intros p st1 Ho Hne Hq Hv Hpre Hpost Hkw. subst p.
  destruct (set_other id q v st Hne) as (Ho1 & _ & Hl1). fold st1 in Ho1, Hl1.
  destruct (set_get_inherited fn_sem q v st Hq Hv) as (st' & Es & Eg).
  assert (st' = st1) as -> by (unfold st1; by rewrite Es).
  rewrite <- Hl1.
  apply callable_get_invokes with (st1 := st1); [congruence| |].
  - rewrite inject_args_around by done. by rewrite Eg.
  - by apply inject_kwargs_plain.
Qed.

Lemma callable_sees_new_override_witness :
  fst (get demo_fn (PCallable 4 "second" [int_ 0; VProv q1] []) st_q) = Ok (int_ 1) ∧
  fst (get demo_fn (PCallable 4 "second" [int_ 0; VProv q1] [])
         (snd (set q1 (int_ 9) st_q))) = Ok (int_ 9).
Proof.
  split; [reflexivity|].
  refine (f_equal fst
            (callable_sees_new_override demo_fn 4 "second" [int_ 0] [] q1 [] (int_ 9)
               st_q eq_refl _ eq_refl eq_refl _ _ _)).
  - discriminate.
  - by repeat constructor.
  - constructor.
  - constructor.
Defined.

(** X9: when resolving an argument raises, [get] on a callable or a
    memoized callable raises the same exception from the same state: the
    function is not called and nothing is cached. *)
Theorem argument_error_propagates
    (fn_sem : string → list call → list value → list (string * value) → result value)
    (id : positive) (f : string) (args : list value)
    (kwargs : list (string * value)) (st : state) :
  override st id = VSentinel →
  is_sentinel (cache st id) = true →
  (∀ e st1,
     _inject_args (get fn_sem) args st = (Err e, st1) →
     get fn_sem (PCallable id f args kwargs) st = (Err e, st1) ∧
     get fn_sem (PMemoizedCallable id f args kwargs) st = (Err e, st1) ∧
     (id ∉ nested_ids (PCallable id f args kwargs) →
      calls_by id (log st1) = calls_by id (log st) ∧ cache st1 id = cache st id)) ∧
  (∀ a st1 e st2,
     _inject_args (get fn_sem) args st = (Ok a, st1) →
     _inject_kwargs (get fn_sem) kwargs st1 = (Err e, st2) →
     get fn_sem (PCallable id f args kwargs) st = (Err e, st2) ∧
     get fn_sem (PMemoizedCallable id f args kwargs) st = (Err e, st2) ∧
     (id ∉ nested_ids (PCallable id f args kwargs) →
      calls_by id (log st2) = calls_by id (log st) ∧ cache st2 id = cache st id)).
Proof.
  intros Ho Hc. split.
  - intros e st1 E1. cbn [get]. unfold Provider_get. rewrite Ho. cbn [is_sentinel negb].
    unfold Callable_provide, MemoizedCallable_provide, bind. rewrite Hc, E1. cbn [negb].
    split; [done|]. split; [done|].
    cbn [nested_ids]. intros Hn. apply not_elem_of_app in Hn as [Hna _].
    exact (inject_args_quiet fn_sem _ _ (quiet_args fn_sem id args Hna) _ _ _ E1).
  - intros a st1 e st2 E1 E2. cbn [get]. unfold Provider_get. rewrite Ho.
    cbn [is_sentinel negb].
    unfold Callable_provide, MemoizedCallable_provide, bind. rewrite Hc, E1, E2.
    cbn [negb]. split; [done|]. split; [done|].
    cbn [nested_ids]. intros Hn. apply not_elem_of_app in Hn as [Hna Hnk].
    eapply same_calls_trans.
    + exact (inject_args_quiet fn_sem _ _ (quiet_args fn_sem id args Hna) _ _ _ E1).
    + exact (inject_kwargs_quiet fn_sem _ _ (quiet_kwargs fn_sem id kwargs Hnk) _ _ _ E2).
Qed.

Lemma argument_error_witness :
  get demo_fn over_abstract st_q = (Err NotImplementedError, st_q).
Proof.
  exact (proj1 (proj1 (argument_error_propagates demo_fn 3 "counter" [VProv (PBase 5)] []
                         st_q eq_refl eq_refl) NotImplementedError st_q eq_refl)).
Defined.

(** ** Configuration paths *)

Lemma set_loop_err_state segs : ∀ c st e st',
  set_loop segs c st = (Err e, st') → st' = st.
Proof.
  induction segs as [|i segs IH]; intros c st e st' E; [discriminate|].
  destruct (cursor_cases c st) as [(l & d & -> & Hl)|Hn].
  - destruct (is_sentinel (default VSentinel (d !! i))) eqn:Hs.
    + rewrite (set_loop_step_create _ _ _ _ _ Hl Hs) in E.
      match type of E with set_loop _ (VDict ?l1) ?s = _ =>
        destruct (set_loop_new_dict segs l1 s) as (l' & st2 & E2 & _)
      end.
      { cbn. rewrite lookup_insert_ne; [apply lookup_insert_eq|].
        intros Heq. pose proof (fresh_loc_None (heap st)). congruence. }
      congruence.
    + rewrite (set_loop_step_descend _ _ _ _ _ Hl Hs) in E. eauto.
  - destruct (set_loop_stuck i segs c st Hn) as [e' He]. congruence.
Qed.

Lemma set_loop_ok_cases segs : ∀ c st cur st',
  set_loop segs c st = (Ok cur, st') →
  st' = st ∨ ∃ l, cur = VDict l ∧ heap st' !! l = Some ∅.
Proof.
  induction segs as [|i segs IH]; intros c st cur st' E.
  - inversion E; subst. by left.
  - destruct (cursor_cases c st) as [(l & d & -> & Hl)|Hn].
    + destruct (is_sentinel (default VSentinel (d !! i))) eqn:Hs.
      * rewrite (set_loop_step_create _ _ _ _ _ Hl Hs) in E.
        match type of E with set_loop _ (VDict ?l1) ?s = _ =>
          destruct (set_loop_new_dict segs l1 s) as (l' & st2 & E2 & He)
        end.
        { cbn. rewrite lookup_insert_ne; [apply lookup_insert_eq|].
          intros Heq. pose proof (fresh_loc_None (heap st)). congruence. }
        rewrite E2 in E. inversion E; subst. right. eauto.
      * rewrite (set_loop_step_descend _ _ _ _ _ Hl Hs) in E. eauto.
    + destruct (set_loop_stuck i segs c st Hn) as [e' He]. congruence.
Qed.

(** X10: a [set] on a path provider that raises has changed nothing. *)
Theorem path_set_failure_changes_nothing
    (c : configuration) (id : positive) (path : list string) (v : value)
    (st st' : state) (e : exn) :
  set (PConfigurationItem id c path) v st = (Err e, st') → st' = st.
Proof.
  cbn [set]. unfold ConfigurationItem_set.
  destruct (is_sentinel v); [discriminate|].
  unfold bind at 1.
  destruct (Configuration_get c st) as [[root|e0] st0] eqn:E0;
    apply Configuration_get_state in E0; subst st0.
  2:{ intros E. by inversion E. }
  unfold bind at 1.
  destruct (set_loop (removelast path) root st) as [[cur|e1] st1] eqn:E1.
  2:{ intros E. inversion E; subst. by eapply set_loop_err_state. }
  destruct (set_loop_ok_cases _ _ _ _ _ E1) as [->|(l & -> & Hl)].
  - destruct (last path); unfold setitem, raise; intros E.
    + destruct cur; try (by inversion E).
      destruct (heap st !! l); by inversion E.
    + by inversion E.
  - destruct (last path) as [k|] eqn:Hk.
    + unfold setitem. rewrite Hl. discriminate.
    + apply last_None in Hk. subst path. cbn in E1. inversion E1; subst.
      unfold raise. intros E. by inversion E.
Qed.

Lemma path_set_failure_witness :
  set (PConfigurationItem 2 config ["a"; "b"]) (int_ 5) st_a_1 = (Err TypeError, st_a_1) ∧
  set (PConfigurationItem 2 config ["a"; "b"; "c"]) (int_ 5) st_a_1
  = (Err (AttributeError "get"), st_a_1).
Proof.
  assert (∀ path e st',
            set (PConfigurationItem 2 config path) (int_ 5) st_a_1 = (e, st') →
            ∀ x, e = Err x → set (PConfigurationItem 2 config path) (int_ 5) st_a_1
                             = (Err x, st_a_1)) as H.
  { intros path e st' E x ->.
    by rewrite <- (path_set_failure_changes_nothing config 2 path (int_ 5) st_a_1 st' x E)
      at 2. }
  split.
  - eapply H; reflexivity.
  - eapply H; reflexivity.
Defined.

(** The loop of [set] keeps every dict and every entry. *)
Lemma set_loop_grows segs : ∀ c st r st',
  sentinel_free (heap st) →
  set_loop segs c st = (r, st') →
  ∀ l d, heap st !! l = Some d →
         ∃ d', heap st' !! l = Some d' ∧ ∀ k x, d !! k = Some x → d' !! k = Some x.
Proof.
  induction segs as [|i segs IH]; intros c st r st' Hsf E l1 d1 H1.
  - cbn in E. inversion E; subst. eauto.
  - destruct (cursor_cases c st) as [(l & d & -> & Hl)|Hn].
    2:{ destruct (set_loop_stuck i segs c st Hn) as [e He].
        rewrite He in E. inversion E; subst. eauto. }
    destruct (d !! i) as [next|] eqn:Hi.
    + rewrite (set_loop_step_present _ _ _ _ _ _ Hl Hi (Hsf _ _ _ _ Hl Hi)) in E.
      eapply IH; eauto.
    + rewrite (set_loop_step_missing _ _ _ _ _ Hl Hi) in E.
      pose proof (fresh_loc_None (heap st)) as Hf.
      match type of E with set_loop _ _ ?s = _ =>
        assert (Hsf2 : sentinel_free (heap s))
          by (cbn; by apply sentinel_free_extend)
      end.
      destruct (decide (l1 = l)) as [->|Hne].
      * assert (d1 = d) as -> by congruence.
        destruct (IH _ _ _ _ Hsf2 E l (<[i := VDict (fresh (dom (heap st)))]> d))
          as (d' & Hd' & Hk').
        { cbn. apply lookup_insert_eq. }
        exists d'. split; [done|]. intros k x Hk. apply Hk'.
        rewrite lookup_insert_ne; [done|]. intros Heq. congruence.
      * eapply (IH _ _ _ _ Hsf2 E l1).
        cbn. rewrite lookup_insert_ne by done.
        rewrite lookup_insert_ne; [done|]. intros Heq. congruence.
Qed.

(** X11: [set] on a path provider changes dicts only, and there it removes
    nothing: every dict is still there, and every entry still holds its
    value or holds the value that was set. *)
Theorem path_set_keeps_entries
    (c : configuration) (id : positive) (path : list string) (v : value)
    (st : state) :
  sentinel_free (heap st) →
  let st' := snd (set (PConfigurationItem id c path) v st) in
  overrides st' = overrides st ∧ caches st' = caches st ∧
  datas st' = datas st ∧ log st' = log st ∧
  ∀ l d, heap st !! l = Some d →
         ∃ d', heap st' !! l = Some d' ∧
               ∀ k x, d !! k = Some x → d' !! k = Some x ∨ d' !! k = Some v.
Proof.
  intros Hsf st'.
  destruct (set (PConfigurationItem id c path) v st) as [r st1] eqn:E.
  subst st'. cbn [snd]. cbn [set] in E.
  pose proof (ConfigurationItem_set_fields _ _ _ _ _ _ E) as F.
  split; [by rewrite F|]. split; [by rewrite F|]. split; [by rewrite F|].
  split; [by rewrite F|]. clear F.
  intros l d Hl. unfold ConfigurationItem_set in E.
  destruct (is_sentinel v).
  { inversion E; subst. eauto. }
  unfold bind at 1 in E.
  destruct (Configuration_get c st) as [[root|e0] st0] eqn:E0;
    apply Configuration_get_state in E0; subst st0.
  2:{ inversion E; subst. eauto. }
  unfold bind at 1 in E.
  destruct (set_loop (removelast path) root st) as [[cur|e1] st2] eqn:E1.
  2:{ inversion E; subst.
      destruct (set_loop_grows _ _ _ _ _ Hsf E1 l d Hl) as (d' & Hd' & Hk').
      exists d'. split; [done|]. intros k x Hk. left. eauto. }
  destruct (set_loop_grows _ _ _ _ _ Hsf E1 l d Hl) as (d' & Hd' & Hk').
  destruct (last path) as [kf|].
  - unfold setitem in E.
    destruct cur; try (inversion E; subst; exists d'; split; [done|];
                       intros k x Hk; left; eauto).
    destruct (heap st2 !! l0) as [df|] eqn:Hdf.
    2:{ inversion E; subst. exists d'. split; [done|]. intros k x Hk. left. eauto. }
    inversion E; subst. cbn [heap set_heap].
    destruct (decide (l = l0)) as [->|Hne].
    + rewrite lookup_insert_eq. eexists. split; [done|].
      assert (df = d') as -> by congruence.
      intros k x Hk. destruct (decide (k = kf)) as [->|Hkf].
      * right. apply lookup_insert_eq.
      * left. rewrite lookup_insert_ne by done. eauto.
    + rewrite lookup_insert_ne by done. exists d'. split; [done|].
      intros k x Hk. left. eauto.
  - unfold raise in E. inversion E; subst. exists d'. split; [done|].
    intros k x Hk. left. eauto.
Qed.

Lemma sentinel_free_st_a_b : sentinel_free (heap st_a_b).
Proof.
  apply sentinel_free_check. intros l d Hl k v Hk. cbn in Hl.
  destruct (decide (l = 1%positive)) as [->|H1].
  - rewrite lookup_insert_eq in Hl. inversion Hl; subst.
    destruct (decide (k = "a")) as [->|Hk'].
    + rewrite lookup_singleton_eq in Hk. by inversion Hk.
    + by rewrite lookup_singleton_ne in Hk.
  - rewrite lookup_insert_ne in Hl by done.
    destruct (decide (l = 2%positive)) as [->|H2].
    + rewrite lookup_singleton_eq in Hl. inversion Hl; subst.
      destruct (decide (k = "b")) as [->|Hk'].
      * rewrite lookup_singleton_eq in Hk. by inversion Hk.
      * by rewrite lookup_singleton_ne in Hk.
    + by rewrite lookup_singleton_ne in Hl.
Defined.

Lemma path_set_keeps_entries_witness :
  ∃ d', heap (snd (set (PConfigurationItem 2 config ["a"; "c"]) (int_ 5) st_a_b))
          !! 2%positive = Some d' ∧
        (d' !! "b" = Some (int_ 1) ∨ d' !! "b" = Some (int_ 5)).
Proof.
  destruct (path_set_keeps_entries config 2 ["a"; "c"] (int_ 5) st_a_b
              sentinel_free_st_a_b) as (_ & _ & _ & _ & H).
  destruct (H 2%positive {["b" := int_ 1]} eq_refl) as (d' & Hd' & Hk).
  exists d'. split; [exact Hd'|]. exact (Hk "b" (int_ 1) eq_refl).
Defined.




(** X13: on a configuration without data, a [set] on a path provider does
    not initialize it: whatever the [set] did, the data is still unset and
    [get], on the configuration and on the path provider, returns the
    fallback; when the fallback is a dict, a one-segment [set] stores the
    value in that dict. *)
Theorem path_set_writes_into_fallback
    (fn_sem : string → list call → list value → list (string * value) → result value)
    (c : configuration) (id : positive) (path : list string) (v : value)
    (st : state) :
  data st (config_id c) = VSentinel →
  is_sentinel (fallback c) = false →
  let st' := snd (set (PConfigurationItem id c path) v st) in
  data st' (config_id c) = VSentinel ∧
  get fn_sem (PConfiguration c) st' = (Ok (fallback c), st') ∧
  get fn_sem (PConfigurationItem id c path) st' = (Ok (fallback c), st') ∧
  (∀ lf d k, fallback c = VDict lf → heap st !! lf = Some d →
             is_sentinel v = false → path = [k] →
             set (PConfigurationItem id c path) v st
             = (Ok tt, set_heap (<[lf := <[k := v]> d]> (heap st)) st)).
Proof.
  intros Hd Hf st'.
  assert (data st' (config_id c) = VSentinel) as Hd'.
  { subst st'. destruct (set (PConfigurationItem id c path) v st) as [r st1] eqn:E.
    cbn [set] in E. apply ConfigurationItem_set_fields in E. cbn [snd].
    rewrite E. exact Hd. }
  split; [exact Hd'|].
  destruct (fallback_whole_tree fn_sem c st' Hd' Hf) as (H1 & H2 & _).
  split; [exact H1|]. split; [apply H2|].
  intros lf d k Hfb Hl Hv ->. cbn [set]. unfold ConfigurationItem_set. rewrite Hv.
  unfold bind at 1. unfold Configuration_get. rewrite Hd, Hf. cbn [is_sentinel].
  cbn. unfold bind, ret, setitem. rewrite Hfb, Hl. reflexivity.
Qed.

Lemma path_set_writes_into_fallback_witness :
  let st' := snd (set (PConfigurationItem 2 config_fb ["b"]) (int_ 5) st_fb) in
  data st' 1 = VSentinel ∧
  get demo_fn (PConfigurationItem 2 config_fb ["b"]) st' = (Ok (VDict 1), st') ∧
  denote 2 (heap st') (VDict 1)
  = Some (DDict (<["b" := DInt 5]> {["a" := DInt 1]})).
Proof.
  cbn zeta.
  destruct (path_set_writes_into_fallback demo_fn config_fb 2 ["b"] (int_ 5) st_fb
              eq_refl eq_refl) as (H1 & _ & H3 & _).
  split; [exact H1|]. split; [exact H3|]. vm_compute. reflexivity.
Defined.

(** X14: when the value the configuration resolves to is a scalar ([None],
    an int, a string: for instance a string fallback), [set] on a path
    provider raises and changes nothing: [TypeError] for a path of one
    segment (item assignment), [AttributeError] for a longer path (the
    scalar has no [get]). *)
Theorem path_set_on_scalar_raises
    (fn_sem : string → list call → list value → list (string * value) → result value)
    (c : configuration) (id : positive) (v root : value) (st : state) :
  get fn_sem (PConfiguration c) st = (Ok root, st) →
  scalar root →
  is_sentinel v = false →
  (∀ k, set (PConfigurationItem id c [k]) v st = (Err TypeError, st)) ∧
  (∀ k1 k2 rest,
     set (PConfigurationItem id c (k1 :: k2 :: rest)) v st
     = (Err (AttributeError "get"), st)).
Proof.
  intros E Hs Hv. cbn [get] in E. split.
  - intros k. cbn [set]. unfold ConfigurationItem_set. rewrite Hv.
    unfold bind at 1. rewrite E. cbn. unfold bind, ret, setitem.
    destruct Hs as [->|(o & a & ->)]; reflexivity.
  - intros k1 k2 rest. cbn [set]. unfold ConfigurationItem_set. rewrite Hv.
    unfold bind at 1. rewrite E.
    change (removelast (k1 :: k2 :: rest)) with (k1 :: removelast (k2 :: rest)).
    cbn [set_loop]. unfold bind, dict_get.
    destruct Hs as [->|(o & a & ->)]; reflexivity.
Qed.

Lemma path_set_on_scalar_witness :
  set (PConfigurationItem 2 config_X ["anything"]) (int_ 1) st_X = (Err TypeError, st_X) ∧
  set (PConfigurationItem 2 config_X ["a"; "b"]) (int_ 1) st_X
  = (Err (AttributeError "get"), st_X).
Proof.
  destruct (path_set_on_scalar_raises demo_fn config_X 2 (int_ 1) (str_ 7 "X") st_X
              eq_refl (or_intror (ex_intro _ 7%positive (ex_intro _ (AStr "X") eq_refl)))
              eq_refl) as [H1 H2].
  split; [apply H1|apply H2].
Defined.

(** X15: [get] on a path provider whose path runs into a value that is not
    a dict raises [TypeError]: the segments up to there are found, the
    next one cannot be looked up. *)
Theorem path_get_through_scalar_raises
    (fn_sem : string → list call → list value → list (string * value) → result value)
    (c : configuration) (id : positive) (pre : list string) (k : string)
    (post : list string) (root cur : value) (st : state) :
  get fn_sem (PConfiguration c) st = (Ok root, st) →
  py_is root (fallback c) = false →
  walks (heap st) root pre cur →
  (∀ l, cur ≠ VDict l) →
  get fn_sem (PConfigurationItem id c (pre ++ k :: post)) st = (Err TypeError, st).
Proof.
  intros E Hf W Hc.
  destruct (item_get_guard fn_sem c id (pre ++ k :: post) st) as [H _].
  rewrite (H root E), Hf. clear H E Hf. revert Hc.
  induction W as [cur|l d i x rest r Hl Hi W IH]; intros Hc.
  - cbn. unfold bind, getitem. destruct cur; try reflexivity.
    exfalso. by apply (Hc l).
  - cbn. unfold bind, getitem. rewrite Hl, Hi. by apply IH.
Qed.

Lemma path_get_through_scalar_witness :
  get demo_fn (PConfigurationItem 2 config ["a"; "b"]) st_a_1 = (Err TypeError, st_a_1).
Proof.
  refine (path_get_through_scalar_raises demo_fn config 2 ["a"] "b" [] (VDict 1)
            (int_ 1) st_a_1 eq_refl eq_refl _ _).
  - eapply walks_cons; [reflexivity|reflexivity|]. apply walks_nil.
  - discriminate.
Defined.

(** X16: over a configuration with neither data nor fallback, [get] and
    [set] on every path provider raise the configuration's own
    [ValueError] and change nothing, while [set] of the sentinel returns
    without looking at the configuration; [reset] on a path provider
    always raises [NotImplementedError]. *)
Theorem uninitialized_path_provider
    (fn_sem : string → list call → list value → list (string * value) → result value)
    (c : configuration) (id : positive) (path : list string) (v : value)
    (st : state) :
  data st (config_id c) = VSentinel →
  fallback c = VSentinel →
  is_sentinel v = false →
  get fn_sem (PConfigurationItem id c path) st
  = (Err (ValueError "Configuration Provider not initialized"), st) ∧
  set (PConfigurationItem id c path) v st
  = (Err (ValueError "Configuration Provider not initialized"), st) ∧
  set (PConfigurationItem id c path) VSentinel st = (Ok tt, st) ∧
  reset (PConfigurationItem id c path) st = (Err NotImplementedError, st).
Proof.
  intros Hd Hf Hv. cbn [get set reset].
  unfold ConfigurationItem_get, ConfigurationItem_set, bind, Configuration_get.
  rewrite Hd, Hf, Hv. cbn. rewrite ?Hd. by repeat split.
Qed.

Lemma uninitialized_path_provider_witness :
  get demo_fn (PConfigurationItem 2 config ["a"]) st_X
  = (Err (ValueError "Configuration Provider not initialized"), st_X) ∧
  set (PConfigurationItem 2 config ["a"]) (int_ 1) st_X
  = (Err (ValueError "Configuration Provider not initialized"), st_X).
Proof.
  destruct (uninitialized_path_provider demo_fn config 2 ["a"] (int_ 1) st_X
              eq_refl eq_refl eq_refl) as (H1 & H2 & _).
  split; [exact H1|exact H2].
Defined.

(** ** The injection wrapper on any signature *)

(** X17: the wrapper cannot tell a placeholder from a missing argument:
    with [respect_none=True] a call with [None] among the positional or the
    keyword arguments is the call without it (so the positional arguments
    after it move one place to the left); with [respect_none=False] the same
    holds of the sentinel. *)
Theorem inject_drops_placeholders
    (fn_sem : string → list call → list value → list (string * value) → result value)
    (func : pyfunc) (l1 l2 : list value) (kw1 kw2 : list (string * value))
    (n : string) (st : state) :
  _inject fn_sem func true (l1 ++ VNone :: l2) (kw1 ++ kw2) st
  = _inject fn_sem func true (l1 ++ l2) (kw1 ++ kw2) st ∧
  _inject fn_sem func true (l1 ++ l2) (kw1 ++ (n, VNone) :: kw2) st
  = _inject fn_sem func true (l1 ++ l2) (kw1 ++ kw2) st ∧
  _inject fn_sem func false (l1 ++ VSentinel :: l2) (kw1 ++ kw2) st
  = _inject fn_sem func false (l1 ++ l2) (kw1 ++ kw2) st ∧
  _inject fn_sem func false (l1 ++ l2) (kw1 ++ (n, VSentinel) :: kw2) st
  = _inject fn_sem func false (l1 ++ l2) (kw1 ++ kw2) st.
Proof.
  unfold _inject. cbn [negb]. rewrite !List.filter_app. cbn [List.filter].
  cbn [snd is_none is_sentinel negb]. by repeat split.
Qed.

Lemma lookup_kw_combine names : ∀ (args : list value) i n a,
  NoDup names → names !! i = Some n → args !! i = Some a →
  lookup_kw n (combine names args) = Some a.
Proof.
  induction names as [|m names IH]; intros args i n a Hnd Hn Ha; [by destruct i|].
  destruct args as [|b args]; [by destruct i|].
  apply NoDup_cons in Hnd as [Hm Hnd].
  destruct i as [|i]; cbn in *.
  - inversion Hn; inversion Ha; subst. by rewrite String.eqb_refl.
  - destruct (String.eqb n m) eqn:E.
    + apply String.eqb_eq in E. subst. exfalso. apply Hm.
      by eapply list_elem_of_lookup_2.
    + eauto.
Qed.

Lemma bind_positional_exact params : ∀ args,
  length args = length params →
  bind_positional params args [] = Ok (combine (map p_name params) args, []).
Proof.
  induction params as [|p params IH]; intros [|a args] Hl; try discriminate; [done|].
  cbn. rewrite IH by (cbn in Hl; lia). reflexivity.
Qed.

Lemma all_bound (X : list (string * value)) ps : ∀ vs,
  length ps = length vs →
  (∀ j p a, ps !! j = Some p → vs !! j = Some a →
            lookup_kw (p_name p) X = Some a) →
  apply_defaults ps X = combine (map p_name ps) vs ∧
  bound_args ps X = vs ∧ bound_kwargs ps X = [].
Proof.
  induction ps as [|p ps IH]; intros [|a vs] Hl H; try discriminate; [done|].
  cbn. rewrite (H 0 p a eq_refl eq_refl).
  destruct (IH vs) as (H1 & H2 & H3); [cbn in Hl; lia| |].
  { intros j q b Hq Hb. exact (H (S j) q b Hq Hb). }
  by rewrite H1, H2, H3.
Qed.

Lemma plain_not_provider args :
  Forall plain args → Forall (fun a => is_provider a = false) args.
Proof. intros H. eapply Forall_impl; [exact H|]. by intros a (_ & _ & Ha). Qed.

Lemma filter_plain args :
  Forall plain args →
  List.filter (fun a => negb (is_sentinel a)) args = args ∧
  List.filter (fun a => negb (is_none a)) args = args.
Proof.
  induction 1 as [|a args (Hn & Hs & _) _ [IH1 IH2]]; [done|].
  cbn. rewrite Hn, Hs. cbn. by rewrite IH1, IH2.
Qed.

(** X18: the wrapper is transparent for a call that gives every parameter
    positionally as a plain value: the function is called with exactly
    these arguments, in order, whatever the defaults and the policy. *)
Theorem inject_transparent_on_explicit_arguments
    (fn_sem : string → list call → list value → list (string * value) → result value)
    (name : string) (params : list param) (respect_none : bool)
    (args : list value) (st : state) :
  NoDup (map p_name params) →
  length args = length params →
  Forall plain args →
  _inject fn_sem (PyFunc name params) respect_none args [] st
  = invoke fn_sem ByWrapper name args [] st.
Proof.
  intros Hnd Hl Hp. unfold _inject. cbn [fn_params fn_name List.filter].
  destruct (filter_plain args Hp) as [F1 F2].
  assert ((if negb respect_none then List.filter (fun a => negb (is_sentinel a)) args
           else List.filter (fun a => negb (is_none a)) args) = args) as ->
    by (by destruct respect_none).
  assert ((if negb respect_none then @nil (string * value) else []) = []) as ->
    by (by destruct respect_none).
  unfold bind_partial. rewrite (bind_positional_exact params args Hl).
  cbn [bind_keywords]. rewrite app_nil_r.
  destruct (all_bound (combine (map p_name params) args) params args) as (H1 & H2 & H3).
  { by rewrite Hl. }
  { intros j p a Hj Ha. eapply lookup_kw_combine; eauto.
    by rewrite list_lookup_fmap, Hj. }
  rewrite H1, H2, H3. unfold bind.
  rewrite (inject_args_plain (get fn_sem) args st (plain_not_provider args Hp)).
  reflexivity.
Qed.

Lemma inject_transparent_witness :
  _inject demo_fn (f_xy "second" p42) true [int_ 1; int_ 7] [] st_p
  = (Ok (int_ 7), add_call (Call ByWrapper "second" [int_ 1; int_ 7] []) st_p).
Proof.
  refine (inject_transparent_on_explicit_arguments demo_fn "second"
            [Param "x" None; Param "y" (Some (Provide p42))] true [int_ 1; int_ 7] st_p
            _ eq_refl _).
  - cbn. apply NoDup_cons. split.
    + intros H. apply elem_of_cons in H as [H|H]; [discriminate|].
      by apply elem_of_nil in H.
    + apply NoDup_singleton.
  - repeat constructor.
Defined.








